(** * Shannon-Fano coder: a shallow embedding of [shannon_fano.py]

    The development follows the class [ShannonFanoEncoder]: frequency
    counting, the probability model, the recursive coder
    ([shannon_fano_coding] with its inner [divide_and_code]) and the codec
    ([encode_text], [decode_text]).

    Modelling conventions.
    - A Python [str] is a list of Unicode code points ([N]); a one-character
      string is a one-element list.
    - A Python [dict] is an association list in insertion order: assignment
      to an existing key overwrites in place, a new key is appended.
    - Python [int] is [Z].  The float operations the program uses form
      the class [Arith]; what does not depend on the numeric values is
      proved for every interpretation of them, rounding or not.  What does
      (the split rule, the order of the sort) is proved for the exact
      interpretation on canonical rationals [Qc]; the interpretation on
      binary64 floats, [binary64_arith], shows where rounding departs from
      it.  [float('inf')] only occurs as the initial value of [min_diff]
      and is the [None] of an option.
    - A method reads some attributes of [self] and writes one; the embedded
      function takes the attributes read as arguments and returns the
      attribute written.
    - Exceptions and the recursion budget live in the [outcome] monad. *)

From Stdlib Require Import String Ascii QArith Qcanon Qcabs Sorted.
From Stdlib Require PrimFloat Uint63.
From stdpp Require Import base decidable option numbers list.

Local Open Scope Z_scope.

(** ** Strings *)

Abbreviation char := N (only parsing).
Abbreviation str := (list N) (only parsing).

Definition space : char := 32%N.
Definition bit0 : char := 48%N.
Definition bit1 : char := 49%N.

(** [lit "abc"] is the Python literal ['abc']. *)
Definition lit (s : string) : str := N_of_ascii <$> list_ascii_of_string s.

(** [text[a:b]] for [0 <= a]. *)
Definition py_slice (t : str) (a b : Z) : str :=
  take (Z.to_nat (b - a)) (drop (Z.to_nat a) t).

(** [range(start, stop, step)] for a positive [step]. *)
Definition py_range (start stop step : Z) : list Z :=
  (λ k : nat, start + Z.of_nat k * step) <$>
    seq 0 (Z.to_nat ((stop - start + step - 1) / step)).

Definition len {A} (l : list A) : Z := Z.of_nat (length l).

(** ** Dictionaries *)

Abbreviation dict K V := (list (K * V)) (only parsing).

Section dict.
Context {K V : Type} `{EqDecision K}.

(** [d.get(k)]; [k in d] is [is_Some (dict_get k d)]. *)
Fixpoint dict_get (k : K) (d : dict K V) : option V :=
  match d with
  | [] => None
  | (k', v) :: d' => if decide (k = k') then Some v else dict_get k d'
  end.

(** [d[k] = v]. *)
Fixpoint dict_set (k : K) (v : V) (d : dict K V) : dict K V :=
  match d with
  | [] => [(k, v)]
  | (k', v') :: d' =>
      if decide (k = k') then (k, v) :: d' else (k', v') :: dict_set k v d'
  end.

Definition dict_keys (d : dict K V) : list K := d.*1.
Definition dict_values (d : dict K V) : list V := d.*2.
End dict.

(** [Counter(xs)]: one pass, first occurrence fixes the position. *)
Definition count_step {K} `{EqDecision K} (d : dict K Z) (x : K) : dict K Z :=
  dict_set x (default 0 (dict_get x d) + 1) d.

Definition Counter {K} `{EqDecision K} (xs : list K) : dict K Z :=
  fold_left count_step xs [].

(** ** Outcomes *)

Inductive exn := ZeroDivisionError | ValueError.

Inductive outcome (A : Type) :=
  | Return (a : A)
  | Raise (e : exn)
  | OutOfFuel.
Arguments Return {A} a.
Arguments Raise {A} e.
Arguments OutOfFuel {A}.

#[global] Instance outcome_bind : MBind outcome := λ A B f m,
  match m with
  | Return a => f a
  | Raise e => Raise e
  | OutOfFuel => OutOfFuel
  end.

Fixpoint omap_list {A B} (f : A → outcome B) (l : list A) : outcome (list B) :=
  match l with
  | [] => Return []
  | x :: l' => y ← f x; ys ← omap_list f l'; Return (y :: ys)
  end.

(** ** Numbers *)

(** The operations on floats that the program uses.  [fzero] is the [0]
    that [sum] starts from, [fdiv a b] is [a / b] on ints with [b] not zero,
    [flt_inf x] is [x < float('inf')]. *)
Class Arith (F : Type) := {
  fzero : F;
  fadd : F → F → F;
  fsub : F → F → F;
  fmul : F → F → F;
  fneg : F → F;
  fabs : F → F;
  fdiv : Z → Z → F;
  fltb : F → F → bool;
  flt_inf : F → bool;
}.

(** Exact arithmetic. *)
#[global] Instance Qc_arith : Arith Qc := {|
  fzero := 0%Qc;
  fadd := Qcplus;
  fsub := Qcminus;
  fmul := Qcmult;
  fneg := Qcopp;
  fabs := Qcabs;
  fdiv a b := (Qc_of_Z a / Qc_of_Z b)%Qc;
  fltb x y := bool_decide (x < y)%Qc;
  flt_inf _ := true;
|}.

(** Binary64, the arithmetic of the interpreter.  An int below 2^53
    converts exactly, so [fdiv] is the correctly rounded quotient. *)
Definition float_of_int (z : Z) : PrimFloat.float :=
  match z with
  | Zneg _ => PrimFloat.opp (PrimFloat.of_uint63 (Uint63.of_Z (Z.opp z)))
  | _ => PrimFloat.of_uint63 (Uint63.of_Z z)
  end.

#[global] Instance binary64_arith : Arith PrimFloat.float := {|
  fzero := PrimFloat.zero;
  fadd := PrimFloat.add;
  fsub := PrimFloat.sub;
  fmul := PrimFloat.mul;
  fneg := PrimFloat.opp;
  fabs := PrimFloat.abs;
  fdiv a b := PrimFloat.div (float_of_int a) (float_of_int b);
  fltb := PrimFloat.ltb;
  flt_inf x := PrimFloat.ltb x PrimFloat.infinity;
|}.

(** ** Frequency counter *)

(** The body of the pair branch of [calculate_frequencies]; [encode_text]
    walks the text with the same two statements. *)
Definition padded_last (t : str) : list str :=
  match last t with
  | Some c => [[c; space]]
  | None => []
  end.

(** The loop [for i in range(0, len(text) - 1, 2)] with its guarded
    [append]. *)
Definition pairs_body (t : str) : list str :=
  concat ((λ i, if bool_decide (i + 1 < len t) then [py_slice t i (i + 2)] else [])
            <$> py_range 0 (len t - 1) 2).

Definition pairs_list (t : str) : list str :=
  if bool_decide (len t `mod` 2 = 1) then pairs_body t ++ padded_last t
  else pairs_body t.

Definition calculate_frequencies (text : str) (pairs : bool) : dict str Z :=
  if pairs then Counter (pairs_list text)
  else Counter ((λ c, [c]) <$> text).

(** ** Probability model *)

(** [a / b] on Python ints. *)
Definition py_truediv `{Arith F} (a b : Z) : outcome F :=
  if decide (b = 0) then Raise ZeroDivisionError else Return (fdiv a b).

(** The builtin [sum], on ints and on floats: left to right from [0]. *)
Definition py_sum_int (l : list Z) : Z := fold_left Z.add l 0.
Definition py_sum `{Arith F} (l : list F) : F := fold_left fadd l fzero.

(** The comprehension runs over the items of a dict, so its keys are
    already distinct and the result keeps their order. *)
Definition calculate_probabilities `{Arith F} (frequencies : dict str Z)
  : outcome (dict str F) :=
  let total := py_sum_int (dict_values frequencies) in
  omap_list (λ '(char, freq), p ← py_truediv freq total; Return (char, p))
            frequencies.

Section entropy.
Context `{Arith F}.
(** [math.log2] on positive arguments is a parameter of the model. *)
Variable log2 : F → F.

(** [math.log2(x)]: a [ValueError] outside the positive numbers. *)
Definition py_log2 (x : F) : outcome F :=
  if fltb fzero x then Return (log2 x) else Raise ValueError.

Definition calculate_entropy (probabilities : dict str F) : outcome F :=
  terms ← omap_list (λ p, l ← py_log2 p; Return (fmul p l))
                    (filter (λ p, fltb fzero p = true) (dict_values probabilities));
  Return (fneg (py_sum terms)).
End entropy.

(** [math.ceil(math.log2(n))] for an int [n > 1] is [Z.log2_up n]. *)
Definition calculate_uniform_code_length (frequencies : dict str Z) : Z :=
  let alphabet_size := len frequencies in
  if decide (alphabet_size > 1) then Z.log2_up alphabet_size else 1.

(** ** Shannon-Fano coder *)

Abbreviation item F := (list N * F)%type (only parsing).

(** [sorted(items, key=lambda x: x[1], reverse=True)]: the stable sort by
    descending probability.  [insert_desc x l] puts [x], which stood before
    all of [l], in front of the first element that is not strictly greater. *)
Fixpoint insert_desc `{Arith F} (x : item F) (l : list (item F)) : list (item F) :=
  match l with
  | [] => [x]
  | y :: l' => if fltb x.2 y.2 then y :: insert_desc x l' else x :: y :: l'
  end.

Definition sorted_desc `{Arith F} (items : list (item F)) : list (item F) :=
  foldr insert_desc [] items.

(** [diff < min_diff], where [None] is [float('inf')]. *)
Definition lt_min `{Arith F} (diff : F) (min_diff : option F) : bool :=
  match min_diff with
  | None => flt_inf diff
  | Some m => fltb diff m
  end.

(** One iteration of the [for i in range(1, len(items))] scan. *)
Definition scan_step `{Arith F} (items : list (item F)) (total_prob : F)
    (st : nat * option F) (i : nat) : nat * option F :=
  let '(best_split, min_diff) := st in
  let left_prob := py_sum (take i items).*2 in
  let right_prob := fsub total_prob left_prob in
  let diff := fabs (fsub left_prob right_prob) in
  if lt_min diff min_diff then (i, Some diff) else (best_split, min_diff).

Definition scan `{Arith F} (items : list (item F)) : nat * option F :=
  let total_prob := py_sum items.*2 in
  fold_left (scan_step items total_prob) (seq 1 (length items - 1)) (1%nat, None).

Definition best_split `{Arith F} (items : list (item F)) : nat := (scan items).1.

Definition left_group `{Arith F} (items : list (item F)) : list (item F) :=
  take (best_split items) items.
Definition right_group `{Arith F} (items : list (item F)) : list (item F) :=
  drop (best_split items) items.

(** [divide_and_code(items, code_prefix)], threading [self.codes].  [fuel]
    bounds the depth of the recursion. *)
Fixpoint divide_and_code `{Arith F} (fuel : nat) (items : list (item F))
    (code_prefix : str) (codes : dict str str) : outcome (dict str str) :=
  match fuel with
  | O => OutOfFuel
  | S fuel =>
      if decide (length items ≤ 1)%nat then
        match items with
        | it :: _ =>
            Return (dict_set it.1
                      (if decide (code_prefix = []) then [bit0] else code_prefix)
                      codes)
        | [] => Return codes
        end
      else
        codes ← divide_and_code fuel (left_group items) (code_prefix ++ [bit0]) codes;
        divide_and_code fuel (right_group items) (code_prefix ++ [bit1]) codes
  end.

Definition shannon_fano_coding `{Arith F} (probabilities : dict str F)
    (codes : dict str str) : outcome (dict str str) :=
  let sorted_items := sorted_desc probabilities in
  divide_and_code (S (length sorted_items)) sorted_items [] codes.

(** ** Codec *)

(** [if sym in self.codes: encoded += self.codes[sym]]. *)
Definition emit (codes : dict str str) (encoded : str) (sym : str) : str :=
  match dict_get sym codes with
  | Some c => encoded ++ c
  | None => encoded
  end.

(** [len(self.codes) > 0 and len(list(self.codes.keys())[0]) == 2]. *)
Definition is_pairs (codes : dict str str) : bool :=
  bool_decide (0 < len codes)
  && match head (dict_keys codes) with
     | Some key0 => bool_decide (length key0 = 2%nat)
     | None => false
     end.

Definition encode_text (text : str) (codes : dict str str) : str :=
  match codes with
  | [] => []
  | _ :: _ =>
      if is_pairs codes then
        let encoded :=
          fold_left (λ encoded i,
                       if bool_decide (i + 1 < len text)
                       then emit codes encoded (py_slice text i (i + 2))
                       else encoded)
                    (py_range 0 (len text - 1) 2) [] in
        if bool_decide (len text `mod` 2 = 1)
        then fold_left (emit codes) (padded_last text) encoded
        else encoded
      else fold_left (λ encoded c, emit codes encoded [c]) text []
  end.

(** [{code: char for char, code in self.codes.items()}]. *)
Definition reverse_codes (codes : dict str str) : dict str str :=
  fold_left (λ d '(char, code), dict_set code char d) codes [].

(** One iteration of [for bit in encoded_text]; the state is
    [(decoded, current_code)]. *)
Definition decode_step (text : str) (rev : dict str str)
    (st : str * str) (bit : char) : str * str :=
  let '(decoded, current_code) := st in
  let current_code := current_code ++ [bit] in
  match dict_get current_code rev with
  | Some decoded_pair =>
      if decide (length decoded_pair = 2%nat) then
        if bool_decide (last decoded_pair = Some space)
           && bool_decide (len text `mod` 2 = 1)
           && bool_decide (len decoded = len text - 1)
        then (decoded ++ take 1 decoded_pair, [])
        else (decoded ++ decoded_pair, [])
      else (decoded ++ decoded_pair, [])
  | None => (decoded, current_code)
  end.

Definition decode_loop (text : str) (codes : dict str str) (encoded_text : str)
  : str * str :=
  fold_left (decode_step text (reverse_codes codes)) encoded_text ([], []).

Definition decode_text (text : str) (codes : dict str str) (encoded_text : str)
  : str :=
  match codes, encoded_text with
  | [], _ | _, [] => []
  | _, _ => (decode_loop text codes encoded_text).1
  end.

(** ** The pipeline of [analyze_text] that the codec depends on *)

Record encoder (F : Type) := {
  text : str;
  frequencies : dict str Z;
  probabilities : dict str F;
  codes : dict str str;
}.
Arguments text {F} _.
Arguments frequencies {F} _.
Arguments probabilities {F} _.
Arguments codes {F} _.

(** [ShannonFanoEncoder(text)] followed by [calculate_frequencies(pairs)],
    [calculate_probabilities()] and [shannon_fano_coding()]. *)
Definition build `{Arith F} (t : str) (pairs : bool) : outcome (encoder F) :=
  let f := calculate_frequencies t pairs in
  p ← calculate_probabilities f;
  c ← shannon_fano_coding p [];
  Return {| text := t; frequencies := f; probabilities := p; codes := c |}.

Definition encoded_of {F} (e : encoder F) : str := encode_text (text e) (codes e).
Definition decoded_of {F} (e : encoder F) : str :=
  decode_text (text e) (codes e) (encoded_of e).

Definition codes_of `{Arith F} (t : str) (pairs : bool) : outcome (dict str str) :=
  e ← build (F:=F) t pairs; Return (codes e).
Definition roundtrip `{Arith F} (t : str) (pairs : bool) : outcome str :=
  e ← build (F:=F) t pairs; Return (decoded_of e).

(** ** Reporting *)

(** The further float operations of the reporting methods: [fof_int n] is
    the int [n] as an operand of a float operation, [ftruediv x y] is
    [x / y] on floats with [y] not zero, [fis_zero y] is [y == 0]. *)
Class ArithReport (F : Type) `{Arith F} := {
  fof_int : Z → F;
  ftruediv : F → F → F;
  fis_zero : F → bool;
}.

#[global] Instance Qc_report : ArithReport Qc := {|
  fof_int := Qc_of_Z;
  ftruediv := Qcdiv;
  fis_zero y := bool_decide (y = 0%Qc);
|}.

#[global] Instance binary64_report : ArithReport PrimFloat.float := {|
  fof_int := float_of_int;
  ftruediv := PrimFloat.div;
  fis_zero y := PrimFloat.eqb y PrimFloat.zero;
|}.

(** [self.uniform_code_length - self.entropy]. *)
Definition calculate_redundancy `{ArithReport F} (uniform_code_length : Z)
    (entropy : F) : F :=
  fsub (fof_int uniform_code_length) entropy.

(** The sum over the nested generator
    [for char, code in codes.items() for char_prob, prob in
    probabilities.items() if char == char_prob]. *)
Definition calculate_average_code_length `{ArithReport F}
    (codes : dict str str) (probabilities : dict str F) : F :=
  py_sum
    (concat
       ((λ '(char, code),
           concat
             ((λ '(char_prob, prob),
                 if decide (char = char_prob)
                 then [fmul (fof_int (len code)) prob]
                 else [])
                <$> probabilities))
          <$> codes)).

(** [x / y] on floats. *)
Definition py_float_div `{ArithReport F} (x y : F) : outcome F :=
  if fis_zero y then Raise ZeroDivisionError else Return (ftruediv x y).

Definition calculate_compression_efficiency `{ArithReport F} (entropy : F)
    (codes : dict str str) (probabilities : dict str F) : outcome F :=
  let avg_length := calculate_average_code_length codes probabilities in
  if fltb fzero avg_length
  then q ← py_float_div entropy avg_length; Return (fmul q (fof_int 100))
  else Return fzero.

(** ** The statistics table and [analyze_text] *)

(** [a < b] on strings: by code point, a string before its extensions. *)
Fixpoint str_ltb (a b : str) : bool :=
  match a, b with
  | _, [] => false
  | [], _ :: _ => true
  | x :: a', y :: b' =>
      if decide (x = y) then str_ltb a' b' else bool_decide (x < y)%N
  end.

(** [sorted(keys)]: the stable sort in ascending order.  [insert_asc x l]
    puts [x], which stood before all of [l], behind the elements that are
    strictly smaller. *)
Fixpoint insert_asc (x : str) (l : list str) : list str :=
  match l with
  | [] => [x]
  | y :: l' => if str_ltb y x then y :: insert_asc x l' else x :: y :: l'
  end.

Definition sorted_asc (keys : list str) : list str := foldr insert_asc [] keys.

(** The reporting methods subscript dicts, so [KeyError] joins the
    exceptions of the methods above. *)
Inductive failure :=
  | Builtin (e : exn)
  | KeyError (key : str)
  | Exhausted.

Inductive report (A : Type) :=
  | Done (a : A)
  | Failed (f : failure).
Arguments Done {A} a.
Arguments Failed {A} f.

#[global] Instance report_bind : MBind report := λ A B f m,
  match m with
  | Done a => f a
  | Failed e => Failed e
  end.

Definition lift {A} (m : outcome A) : report A :=
  match m with
  | Return a => Done a
  | Raise e => Failed (Builtin e)
  | OutOfFuel => Failed Exhausted
  end.

(** [d[k]]. *)
Definition dict_item {V} (k : str) (d : dict str V) : report V :=
  match dict_get k d with
  | Some v => Done v
  | None => Failed (KeyError k)
  end.

(** A loop that appends one result per element and stops at the first
    exception. *)
Fixpoint rmap_list {A B} (f : A → report B) (l : list A) : report (list B) :=
  match l with
  | [] => Done []
  | x :: l' => y ← f x; ys ← rmap_list f l'; Done (y :: ys)
  end.

(** One row of [data]; the [DataFrame] is built from the rows in this
    order. *)
Record row (F : Type) := {
  row_symbol : str;
  row_frequency : Z;
  row_probability : F;
  row_code : str;
  row_code_length : Z;
}.
Arguments row_symbol {F} _.
Arguments row_frequency {F} _.
Arguments row_probability {F} _.
Arguments row_code {F} _.
Arguments row_code_length {F} _.

(** The dict that [analyze_text] returns, by key; [encoder] holds the
    tables of the encoder object. *)
Module Analysis.
Record t (F : Type) := {
  encoder : encoder F;
  entropy : F;
  uniform_code_length : Z;
  redundancy : F;
  average_code_length : F;
  compression_efficiency : F;
  encoded_text : str;
  decoded_text : str;
  statistics_table : list (row F);
  original_length : Z;
  encoded_length : Z;
  compression_ratio : F;
}.
Arguments encoder {F} _.
Arguments entropy {F} _.
Arguments uniform_code_length {F} _.
Arguments redundancy {F} _.
Arguments average_code_length {F} _.
Arguments compression_efficiency {F} _.
Arguments encoded_text {F} _.
Arguments decoded_text {F} _.
Arguments statistics_table {F} _.
Arguments original_length {F} _.
Arguments encoded_length {F} _.
Arguments compression_ratio {F} _.
End Analysis.

Section analysis.
Context `{ArithReport F}.

(** [math.log2], [repr] on strings and [round(x, 4)] on floats are
    parameters of the model. *)
Variable log2 : F → F.
Variable repr : str → str.
Variable round4 : F → F.

Definition table_row (frequencies : dict str Z) (probabilities : dict str F)
    (codes : dict str str) (char : str) : report (row F) :=
  freq ← dict_item char frequencies;
  prob ← dict_item char probabilities;
  let code := default [] (dict_get char codes) in
  let code_length := len code in
  Done {| row_symbol := repr char;
          row_frequency := freq;
          row_probability := round4 prob;
          row_code := code;
          row_code_length := code_length |}.

Definition get_statistics_table (frequencies : dict str Z)
    (probabilities : dict str F) (codes : dict str str) : report (list (row F)) :=
  rmap_list (table_row frequencies probabilities codes)
            (sorted_asc (dict_keys frequencies)).

Definition analyze_text (text : str) (pairs : bool) : report (Analysis.t F) :=
  let frequencies := calculate_frequencies text pairs in
  probabilities ← lift (calculate_probabilities frequencies);
  entropy ← lift (calculate_entropy log2 probabilities);
  let uniform_length := calculate_uniform_code_length frequencies in
  let redundancy := calculate_redundancy uniform_length entropy in
  codes ← lift (shannon_fano_coding probabilities []);
  let avg_length := calculate_average_code_length codes probabilities in
  efficiency ← lift (calculate_compression_efficiency entropy codes probabilities);
  let encoded_text := encode_text text codes in
  let decoded_text := decode_text text codes encoded_text in
  stats_table ← get_statistics_table frequencies probabilities codes;
  compression_ratio ←
    lift (match text with
          | [] => Return fzero
          | _ :: _ => py_truediv (len encoded_text) (len text * 8)
          end);
  Done {| Analysis.encoder :=
            Build_encoder F text frequencies probabilities codes;
          Analysis.entropy := entropy;
          Analysis.uniform_code_length := uniform_length;
          Analysis.redundancy := redundancy;
          Analysis.average_code_length := avg_length;
          Analysis.compression_efficiency := efficiency;
          Analysis.encoded_text := encoded_text;
          Analysis.decoded_text := decoded_text;
          Analysis.statistics_table := stats_table;
          Analysis.original_length := len text;
          Analysis.encoded_length := len encoded_text;
          Analysis.compression_ratio := compression_ratio |}.
End analysis.

(** ** Notions used to state the properties *)

(** The assignments [self.codes[sym] = code] that [divide_and_code] performs,
    in the order of the recursion. *)
Fixpoint assignments `{Arith F} (fuel : nat) (items : list (item F))
    (code_prefix : str) : dict str str :=
  match fuel with
  | O => []
  | S fuel =>
      if decide (length items ≤ 1)%nat then
        match items with
        | it :: _ =>
            [(it.1, if decide (code_prefix = []) then [bit0] else code_prefix)]
        | [] => []
        end
      else
        assignments fuel (left_group items) (code_prefix ++ [bit0])
        ++ assignments fuel (right_group items) (code_prefix ++ [bit1])
  end.

(** A run of assignments [d[k] = v], as a loop or a recursion performs. *)
Definition dict_update {K V} `{EqDecision K} (l d : dict K V) : dict K V :=
  fold_left (λ d kv, dict_set kv.1 kv.2 d) l d.

Definition proper_prefix (c1 c2 : str) : Prop := c1 `prefix_of` c2 ∧ c1 ≠ c2.

(** Neither code is a prefix of the other. *)
Definition incomparable (c1 c2 : str) : Prop :=
  ¬ c1 `prefix_of` c2 ∧ ¬ c2 `prefix_of` c1.

(** No code of the table is a proper prefix of a code of the table; codes
    of different symbols are not even equal. *)
Definition prefix_free (codes : dict str str) : Prop :=
  ∀ s1 s2 c1 c2,
    dict_get s1 codes = Some c1 → dict_get s2 codes = Some c2 →
    ¬ proper_prefix c1 c2 ∧ (s1 ≠ s2 → ¬ c1 `prefix_of` c2).

Definition is_bit (b : char) : Prop := b = bit0 ∨ b = bit1.

(** The quantity the split minimises, as the specification words it: the
    distance between the summed probability of items [0,i) and that of
    items [i,end). *)
Definition imbalance `{Arith F} (items : list (item F)) (i : nat) : F :=
  fabs (fsub (py_sum (take i items).*2) (py_sum (drop i items).*2)).

(** The quantity the scan computes at index [i]. *)
Definition scan_diff `{Arith F} (items : list (item F)) (i : nat) : F :=
  let left_prob := py_sum (take i items).*2 in
  fabs (fsub left_prob (fsub (py_sum items.*2) left_prob)).

(** The differences the scan computes are finite and [<] orders them: it
    is irreflexive and transitive on them, and so is its negation.  So it is
    with exact numbers, and with floats when no difference is a NaN. *)
Definition scan_ordered `{Arith F} (items : list (item F)) : Prop :=
  let d := scan_diff items in
  let idx j := (1 ≤ j < length items)%nat in
  (∀ j, idx j → flt_inf (d j) = true ∧ fltb (d j) (d j) = false)
  ∧ (∀ i j k, idx i → idx j → idx k →
       (fltb (d i) (d j) = true → fltb (d j) (d k) = true → fltb (d i) (d k) = true)
       ∧ (fltb (d i) (d j) = false → fltb (d j) (d k) = false →
          fltb (d i) (d k) = false)).

(** Descending order of probability. *)
Definition desc (a b : item Qc) : Prop := (b.2 ≤ a.2)%Qc.

(** The symbols of a text: its characters, or its disjoint pairs with the
    last one padded, by structural recursion. *)
Fixpoint pairs_of (t : str) : list str :=
  match t with
  | a :: b :: t' => [a; b] :: pairs_of t'
  | [a] => [[a; space]]
  | [] => []
  end.

Definition symbols (t : str) (pairs : bool) : list str :=
  if pairs then pairs_of t else (λ c, [c]) <$> t.

(** What [decode_step] appends to [decoded] when the buffer matches the code
    of [sym]. *)
Definition emitted (text decoded sym : str) : str :=
  if decide (length sym = 2%nat) then
    if bool_decide (last sym = Some space)
       && bool_decide (len text `mod` 2 = 1)
       && bool_decide (len decoded = len text - 1)
    then take 1 sym
    else sym
  else sym.

(** The code of a symbol that has one. *)
Definition code_of (codes : dict str str) (sym : str) : str :=
  default [] (dict_get sym codes).

(** Every string of bits runs into a code or stops inside one: some code
    is a prefix of it or it is a prefix of some code. *)
Definition complete (codes : dict str str) : Prop :=
  ∀ w, Forall is_bit w →
    ∃ s c, dict_get s codes = Some c ∧ (c `prefix_of` w ∨ w `prefix_of` c).

(** The buffer is the beginning of a code, short of its end. *)
Definition inside_code (codes : dict str str) (r : str) : Prop :=
  Forall is_bit r ∧ ∃ s c, dict_get s codes = Some c ∧ r `prefix_of` c ∧ r ≠ c.

(** * Properties *)

(** ** Test vectors *)

Example calculate_frequencies_aaabbc :
  calculate_frequencies (lit "aaabbc") false
  = [(lit "a", 3); (lit "b", 2); (lit "c", 1)].
Proof. reflexivity. Qed.

Example calculate_frequencies_abc_pairs :
  calculate_frequencies (lit "abc") true = [(lit "ab", 1); (lit "c ", 1)].
Proof. reflexivity. Qed.

Example codes_aaabbc :
  codes_of (F:=Qc) (lit "aaabbc") false
  = Return [(lit "a", lit "0"); (lit "b", lit "10"); (lit "c", lit "11")].
Proof. vm_compute. reflexivity. Qed.

Example codes_aaabbc_binary64 :
  codes_of (F:=PrimFloat.float) (lit "aaabbc") false
  = Return [(lit "a", lit "0"); (lit "b", lit "10"); (lit "c", lit "11")].
Proof. vm_compute. reflexivity. Qed.

Example encoded_aaaaa :
  (e ← build (F:=PrimFloat.float) (lit "aaaaa") false; Return (codes e, encoded_of e))
  = Return ([(lit "a", lit "0")], lit "00000").
Proof. vm_compute. reflexivity. Qed.

Example roundtrip_hello_world_pairs :
  roundtrip (F:=Qc) (lit "hello world") true = Return (lit "hello world").
Proof. vm_compute. reflexivity. Qed.

Example roundtrip_abc_pairs : roundtrip (F:=Qc) (lit "abc") true = Return (lit "abc").
Proof. vm_compute. reflexivity. Qed.

Example roundtrip_aaaaa : roundtrip (F:=Qc) (lit "aaaaa") false = Return (lit "aaaaa").
Proof. vm_compute. reflexivity. Qed.

(** ** Uniform code length *)

(** C5 (counterexample): on the empty frequency table, where the alphabet
    size is 0, calculate_uniform_code_length returns 1 and not 0. *)
Lemma uniform_code_length_empty_is_one :
  len (@nil (str * Z)) = 0 ∧ calculate_uniform_code_length [] = 1
  ∧ calculate_uniform_code_length [] ≠ 0.
Proof. by vm_compute. Qed.

(** C5 (amended): for every frequency table with alphabet size n,
    calculate_uniform_code_length returns ceil(log2 n) when n > 1, that is
    the integer r with 2^(r-1) < n <= 2^r, and returns 1 when n <= 1 (so
    also for the empty table). *)
Theorem uniform_code_length_spec (frequencies : dict str Z) :
  let n := len frequencies in
  let r := calculate_uniform_code_length frequencies in
  (n > 1 → 2 ^ (r - 1) < n ≤ 2 ^ r) ∧ (n ≤ 1 → r = 1).
Proof.
  intros n r. subst r. unfold calculate_uniform_code_length. fold n.
  split; intros Hn.
  - rewrite decide_True by done.
    pose proof (Z.log2_up_spec n ltac:(lia)) as H.
    by rewrite <- Z.sub_1_r in H.
  - rewrite decide_False by lia. done.
Qed.

(** ** Dictionaries *)

Section dict_facts.
Context {K V : Type} `{EqDecision K}.
Implicit Types (k : K) (v : V) (d : dict K V).

Lemma dict_get_set_eq k v d : dict_get k (dict_set k v d) = Some v.
Proof.
  induction d as [|[k' v'] d IH]; simpl.
  - by rewrite decide_True.
  - destruct (decide (k = k')) as [->|Hne]; simpl.
    + by rewrite decide_True.
    + by rewrite decide_False.
Qed.

Lemma dict_get_set_ne k k' v d :
  k ≠ k' → dict_get k' (dict_set k v d) = dict_get k' d.
Proof.
  intros Hne. induction d as [|[k0 v0] d IH]; simpl.
  - by rewrite decide_False.
  - destruct (decide (k = k0)) as [->|Hk]; simpl.
    + by rewrite !decide_False.
    + destruct (decide (k' = k0)); done.
Qed.

Lemma dict_get_Some_elem k v d : dict_get k d = Some v → (k, v) ∈ d.
Proof.
  induction d as [|[k' v'] d IH]; simpl; [done|].
  destruct (decide (k = k')) as [->|Hne].
  - intros [= ->]. apply list_elem_of_here.
  - intros Hg. apply list_elem_of_further. by apply IH.
Qed.

Lemma dict_get_is_Some k d : is_Some (dict_get k d) ↔ k ∈ dict_keys d.
Proof.
  unfold dict_keys. induction d as [|[k' v'] d IH]; simpl.
  - split; [by intros [? ?]|]. by intros ?%not_elem_of_nil.
  - rewrite elem_of_cons. destruct (decide (k = k')) as [->|Hne].
    + split; eauto.
    + rewrite IH. naive_solver.
Qed.

Lemma dict_get_None k d : dict_get k d = None ↔ k ∉ dict_keys d.
Proof. rewrite <- dict_get_is_Some, eq_None_not_Some. done. Qed.

Lemma dict_get_elem_NoDup k v d :
  NoDup (dict_keys d) → (k, v) ∈ d → dict_get k d = Some v.
Proof.
  unfold dict_keys. induction d as [|[k' v'] d IH]; simpl.
  - by intros _ ?%not_elem_of_nil.
  - rewrite NoDup_cons. intros [Hk' Hnd]. rewrite elem_of_cons.
    intros [[= -> ->]|Hin].
    + by rewrite decide_True.
    + rewrite decide_False; [by apply IH|].
      intros ->. apply Hk'. apply list_elem_of_fmap. by exists (k', v).
Qed.

Lemma dict_keys_set k v d :
  dict_keys (dict_set k v d)
  = if decide (k ∈ dict_keys d) then dict_keys d else dict_keys d ++ [k].
Proof.
  unfold dict_keys. induction d as [|[k' v'] d IH].
  - case_decide as Hin; [by apply elem_of_nil in Hin|done].
  - cbn [dict_set]. destruct (decide (k = k')) as [->|Hne].
    + rewrite decide_True; [done|]. apply list_elem_of_here.
    + rewrite fmap_cons, IH. destruct (decide (k ∈ d.*1)) as [Hin|Hin].
      * rewrite decide_True; [done|]. by apply list_elem_of_further.
      * rewrite decide_False; [done|].
        rewrite fmap_cons, elem_of_cons. naive_solver.
Qed.

Lemma dict_set_NoDup k v d :
  NoDup (dict_keys d) → NoDup (dict_keys (dict_set k v d)).
Proof.
  intros Hnd. rewrite dict_keys_set. case_decide; [done|].
  apply NoDup_app. split_and!; [done| |apply NoDup_singleton].
  intros x Hx ->%list_elem_of_singleton. done.
Qed.

Lemma dict_set_present k v d :
  dict_get k d = Some v → dict_set k v d = d.
Proof.
  induction d as [|[k' v'] d IH]; simpl; [done|].
  destruct (decide (k = k')) as [->|Hne].
  - by intros [= ->].
  - intros Hg. by rewrite IH.
Qed.

Lemma dict_set_length_ne_nil k v d : dict_set k v d ≠ [].
Proof. destruct d as [|[k' v'] d]; simpl; [done|]. by case_decide. Qed.

Lemma dict_update_app l1 l2 d :
  dict_update (l1 ++ l2) d = dict_update l2 (dict_update l1 d).
Proof. apply fold_left_app. Qed.

Lemma dict_update_NoDup l d :
  NoDup (dict_keys d) → NoDup (dict_keys (dict_update l d)).
Proof.
  revert d. induction l as [|[k v] l IH]; intros d Hd; simpl; [done|].
  apply IH. by apply dict_set_NoDup.
Qed.

Lemma dict_update_get_Some k v l d :
  dict_get k (dict_update l d) = Some v →
  (k, v) ∈ l ∨ dict_get k d = Some v.
Proof.
  revert d. induction l as [|[k' v'] l IH]; intros d; simpl; [by right|].
  intros [Hin|Hg]%IH.
  - left. by apply list_elem_of_further.
  - destruct (decide (k' = k)) as [->|Hne].
    + rewrite dict_get_set_eq in Hg. injection Hg as ->.
      left. apply list_elem_of_here.
    + rewrite dict_get_set_ne in Hg by done. by right.
Qed.

Lemma dict_update_keys k l d :
  k ∈ dict_keys (dict_update l d) ↔ k ∈ dict_keys l ∨ k ∈ dict_keys d.
Proof.
  revert d. induction l as [|[k' v'] l IH]; intros d; simpl.
  - unfold dict_keys at 2. simpl. rewrite elem_of_nil. naive_solver.
  - rewrite IH, dict_keys_set. unfold dict_keys at 3. simpl.
    rewrite elem_of_cons. case_decide as Hin.
    + split; [naive_solver|]. intros [[->|?]|?]; auto.
    + rewrite elem_of_app, list_elem_of_singleton. naive_solver.
Qed.

End dict_facts.

(** ** The split scan *)

Section coder_facts.
Context {F : Type} {arith : Arith F}.
Implicit Types (items : list (item F)) (probabilities : dict str F).
Implicit Types (st : nat * option F) (total : F).

Lemma scan_step_fst items total st i :
  (scan_step items total st i).1 = st.1 ∨ (scan_step items total st i).1 = i.
Proof. destruct st as [b m]. unfold scan_step. case_match; simpl; auto. Qed.

Lemma scan_fold_fst items total l st :
  let r := fold_left (scan_step items total) l st in
  r.1 = st.1 ∨ r.1 ∈ l.
Proof.
  revert st. induction l as [|i l IH]; intros st; simpl; [by left|].
  destruct (IH (scan_step items total st i)) as [Heq|Hin].
  - rewrite Heq. destruct (scan_step_fst items total st i) as [->| ->].
    + by left.
    + right. apply list_elem_of_here.
  - right. by apply list_elem_of_further.
Qed.

Lemma best_split_bounds items :
  (2 ≤ length items → 1 ≤ best_split items < length items)%nat.
Proof.
  intros Hlen. unfold best_split, scan.
  destruct (scan_fold_fst items (py_sum items.*2)
              (seq 1 (length items - 1)) (1%nat, None)) as [->|Hin].
  - simpl. lia.
  - apply elem_of_seq in Hin. lia.
Qed.

Lemma left_group_length items :
  (2 ≤ length items → 1 ≤ length (left_group items) < length items)%nat.
Proof.
  intros H. pose proof (best_split_bounds items H).
  unfold left_group. rewrite length_take. lia.
Qed.

Lemma right_group_length items :
  (2 ≤ length items → 1 ≤ length (right_group items) < length items)%nat.
Proof.
  intros H. pose proof (best_split_bounds items H).
  unfold right_group. rewrite length_drop. lia.
Qed.

Lemma left_right_group items : left_group items ++ right_group items = items.
Proof. apply take_drop. Qed.

(** ** The recursion *)

Lemma divide_and_code_assignments fuel items code_prefix codes :
  (length items < fuel)%nat →
  divide_and_code fuel items code_prefix codes
  = Return (dict_update (assignments fuel items code_prefix) codes).
Proof.
  revert items code_prefix codes.
  induction fuel as [|fuel IH]; intros items code_prefix codes Hlen; [lia|].
  cbn [divide_and_code assignments].
  destruct (decide (length items ≤ 1)%nat) as [Hle|Hgt].
  - by destruct items as [|it items].
  - pose proof (left_group_length items ltac:(lia)).
    pose proof (right_group_length items ltac:(lia)).
    rewrite IH by lia. cbn [mbind outcome_bind].
    rewrite IH by lia. by rewrite dict_update_app.
Qed.

Lemma assignments_keys fuel items code_prefix :
  (length items < fuel)%nat →
  dict_keys (assignments fuel items code_prefix) = dict_keys items.
Proof.
  revert items code_prefix.
  induction fuel as [|fuel IH]; intros items code_prefix Hlen; [lia|].
  cbn [assignments].
  destruct (decide (length items ≤ 1)%nat) as [Hle|Hgt].
  - destruct items as [|it [|it' items]]; simpl in *; [done|done|lia].
  - pose proof (left_group_length items ltac:(lia)).
    pose proof (right_group_length items ltac:(lia)).
    unfold dict_keys in *. rewrite fmap_app, !IH by lia.
    by rewrite <- fmap_app, left_right_group.
Qed.

Lemma assignments_codes fuel items code_prefix s c :
  (length items < fuel)%nat →
  (s, c) ∈ assignments fuel items code_prefix →
  code_prefix `prefix_of` c ∧ c ≠ []
  ∧ (Forall is_bit code_prefix → Forall is_bit c).
Proof.
  revert items code_prefix.
  induction fuel as [|fuel IH]; intros items code_prefix Hlen; [lia|].
  cbn [assignments].
  destruct (decide (length items ≤ 1)%nat) as [Hle|Hgt].
  - destruct items as [|it items]; [by intros ?%elem_of_nil|].
    intros [= -> ->]%list_elem_of_singleton.
    destruct (decide (code_prefix = [])) as [->|Hne].
    + split_and!; [apply prefix_nil|done|].
      intros _. apply Forall_singleton. by left.
    + done.
  - pose proof (left_group_length items ltac:(lia)).
    pose proof (right_group_length items ltac:(lia)).
    intros [Hin|Hin]%elem_of_app; apply IH in Hin as (Hp & Hne & Hbits);
      try lia; (split_and!; [by eapply prefix_app_l|done|]);
      intros Hcp; apply Hbits, Forall_app; split; try done;
      apply Forall_singleton; [by left|by right].
Qed.

Lemma bit0_ne_bit1 : bit0 ≠ bit1.
Proof. done. Qed.

Lemma split_incomparable (p c1 c2 : str) :
  p ++ [bit0] `prefix_of` c1 → p ++ [bit1] `prefix_of` c2 → incomparable c1 c2.
Proof.
  intros H0 H1.
  assert (Hne : ¬ ∃ c, p ++ [bit0] `prefix_of` c ∧ p ++ [bit1] `prefix_of` c).
  { intros (c & Ha & Hb).
    assert (p ++ [bit0] = p ++ [bit1]) as Heq.
    { destruct (prefix_weak_total _ _ _ Ha Hb) as [Hp|Hp].
      - apply (prefix_length_eq _ _ Hp). rewrite !length_app. simpl. lia.
      - symmetry. apply (prefix_length_eq _ _ Hp). rewrite !length_app. simpl. lia. }
    apply app_inv_head in Heq. by injection Heq. }
  split; intros Hp; apply Hne.
  - exists c2. split; [by etrans|done].
  - exists c1. split; [done|by etrans].
Qed.

Lemma incomparable_sym c1 c2 : incomparable c1 c2 → incomparable c2 c1.
Proof. by intros [? ?]. Qed.

Lemma assignments_incomparable fuel items code_prefix i j a b :
  (length items < fuel)%nat →
  i ≠ j →
  assignments fuel items code_prefix !! i = Some a →
  assignments fuel items code_prefix !! j = Some b →
  incomparable a.2 b.2.
Proof.
  revert items code_prefix i j a b.
  induction fuel as [|fuel IH]; intros items code_prefix i j a b Hlen Hij;
    [lia|].
  cbn [assignments].
  destruct (decide (length items ≤ 1)%nat) as [Hle|Hgt].
  - destruct items as [|it items]; [done|].
    intros [-> _]%list_lookup_singleton_Some [-> _]%list_lookup_singleton_Some.
    done.
  - pose proof (left_group_length items ltac:(lia)) as Hl.
    pose proof (right_group_length items ltac:(lia)) as Hr.
    intros [Ha|[Hia Ha]]%lookup_app_Some [Hb|[Hjb Hb]]%lookup_app_Some.
    + eapply (IH (left_group items)); [lia|exact Hij|done..].
    + destruct a as [sa ca], b as [sb cb].
      apply list_elem_of_lookup_2, assignments_codes in Ha as (Hpa & _); [|lia].
      apply list_elem_of_lookup_2, assignments_codes in Hb as (Hpb & _); [|lia].
      by eapply split_incomparable.
    + destruct a as [sa ca], b as [sb cb].
      apply list_elem_of_lookup_2, assignments_codes in Ha as (Hpa & _); [|lia].
      apply list_elem_of_lookup_2, assignments_codes in Hb as (Hpb & _); [|lia].
      apply incomparable_sym. by eapply split_incomparable.
    + eapply (IH (right_group items)); [lia| |done..]. lia.
Qed.

(** ** The sort *)

Lemma insert_desc_perm (x : item F) (l : list (item F)) :
  insert_desc x l ≡ₚ x :: l.
Proof.
  induction l as [|y l IH]; simpl; [done|].
  destruct (fltb x.2 y.2); [|done]. rewrite IH. apply Permutation_swap.
Qed.

Lemma sorted_desc_perm items : sorted_desc items ≡ₚ items.
Proof.
  induction items as [|x l IH]; simpl; [done|].
  by rewrite insert_desc_perm, IH.
Qed.

Lemma sorted_desc_length items : length (sorted_desc items) = length items.
Proof. by rewrite sorted_desc_perm. Qed.

(** ** The code table *)

Lemma shannon_fano_coding_assignments probabilities codes :
  shannon_fano_coding probabilities codes
  = Return (dict_update
              (assignments (S (length (sorted_desc probabilities)))
                           (sorted_desc probabilities) [])
              codes).
Proof. unfold shannon_fano_coding. apply divide_and_code_assignments. lia. Qed.

Lemma assignments_prefix_free fuel items code_prefix :
  (length items < fuel)%nat →
  prefix_free (dict_update (assignments fuel items code_prefix) []).
Proof.
  intros Hlen s1 s2 c1 c2 H1 H2.
  apply dict_update_get_Some in H1 as [H1|?]; [|done].
  apply dict_update_get_Some in H2 as [H2|?]; [|done].
  apply list_elem_of_lookup_1 in H1 as [i Hi].
  apply list_elem_of_lookup_1 in H2 as [j Hj].
  destruct (decide (i = j)) as [->|Hij].
  - rewrite Hi in Hj. injection Hj as -> ->.
    split; [by intros [_ ?]|done].
  - destruct (assignments_incomparable _ _ _ _ _ _ _ Hlen Hij Hi Hj) as [Hn _].
    simpl in Hn. split; [by intros [? _]|done].
Qed.

(** C2: for every probability table, [shannon_fano_coding] on a fresh
    encoder returns a code table in which no code is a proper prefix of
    another code; the codes of two different symbols are not even equal. *)
Theorem shannon_fano_coding_prefix_free probabilities :
  ∃ codes,
    shannon_fano_coding probabilities [] = Return codes ∧ prefix_free codes.
Proof.
  eexists. split; [apply shannon_fano_coding_assignments|].
  apply assignments_prefix_free. lia.
Qed.

(** C10: for every probability table (non-empty or not), the code table
    that [shannon_fano_coding] returns on a fresh encoder has exactly the
    symbols of the probability table as keys, each key once, is non-empty
    when the probability table is, and every assigned code is a non-empty
    string of the characters 0 and 1. *)
Theorem shannon_fano_coding_complete probabilities :
  ∃ codes,
    shannon_fano_coding probabilities [] = Return codes
    ∧ (∀ s, s ∈ dict_keys codes ↔ s ∈ dict_keys probabilities)
    ∧ NoDup (dict_keys codes)
    ∧ (probabilities ≠ [] → codes ≠ [])
    ∧ (∀ s c, dict_get s codes = Some c → c ≠ [] ∧ Forall is_bit c).
Proof.
  eexists. split; [apply shannon_fano_coding_assignments|].
  assert (Hkeys : ∀ s,
    s ∈ dict_keys (dict_update
           (assignments (S (length (sorted_desc probabilities)))
                        (sorted_desc probabilities) []) [])
    ↔ s ∈ dict_keys probabilities).
  { intros s. rewrite dict_update_keys, assignments_keys by lia.
    unfold dict_keys. rewrite sorted_desc_perm, elem_of_nil. naive_solver. }
  split_and!.
  - done.
  - apply dict_update_NoDup. apply NoDup_nil_2.
  - destruct probabilities as [|[s p] l]; [done|]. intros _ Hnil.
    specialize (Hkeys s). rewrite Hnil in Hkeys.
    apply (elem_of_nil s), Hkeys, list_elem_of_here.
  - intros s c [Hin|?]%dict_update_get_Some; [|done].
    apply assignments_codes in Hin as (_ & ? & Hbits); [|lia].
    split; [done|]. by apply Hbits.
Qed.

(** C7: the recursive partitioning terminates on every input: a recursion
    budget of one more than the length of the sub-list always yields a
    result, because both sub-lists passed to the recursive calls are
    strictly shorter than the list split; so [shannon_fano_coding] returns
    for every probability table, and a one-symbol alphabet gets the
    single-bit code 0. *)
Theorem divide_and_code_terminates :
  (∀ fuel items code_prefix codes,
     (length items < fuel)%nat →
     ∃ codes', divide_and_code fuel items code_prefix codes = Return codes')
  ∧ (∀ items,
       (2 ≤ length items)%nat →
       (length (left_group items) < length items)%nat
       ∧ (length (right_group items) < length items)%nat)
  ∧ (∀ probabilities codes,
       ∃ codes', shannon_fano_coding probabilities codes = Return codes')
  ∧ (∀ s (p : F), shannon_fano_coding [(s, p)] [] = Return [(s, [bit0])]).
Proof.
  split_and!.
  - intros fuel items code_prefix codes Hlen. eexists.
    by apply divide_and_code_assignments.
  - intros items Hlen.
    pose proof (left_group_length items Hlen).
    pose proof (right_group_length items Hlen). lia.
  - intros probabilities codes. eexists.
    apply shannon_fano_coding_assignments.
  - done.
Qed.

End coder_facts.

(** ** The split rule *)

Section scan_facts.
Context {F : Type} {arith : Arith F}.
Implicit Types (items : list (item F)) (st : nat * option F).

Lemma scan_step_unfold items st i :
  scan_step items (py_sum items.*2) st i
  = if lt_min (scan_diff items i) st.2 then (i, Some (scan_diff items i)) else st.
Proof. by destruct st. Qed.

(** The state of the scan after the indices 1..k. *)
Lemma scan_invariant items k :
  scan_ordered items → (k < length items)%nat →
  let st := fold_left (scan_step items (py_sum items.*2)) (seq 1 k) (1%nat, None) in
  match k with
  | O => st = (1%nat, None)
  | S _ =>
      st.2 = Some (scan_diff items st.1)
      ∧ (1 ≤ st.1 ≤ k)%nat
      ∧ (∀ j, (1 ≤ j ≤ k)%nat →
              fltb (scan_diff items j) (scan_diff items st.1) = false)
      ∧ (∀ j, (1 ≤ j < st.1)%nat →
              fltb (scan_diff items st.1) (scan_diff items j) = true)
  end.
Proof.
  intros [Hfin Hord]. cbn zeta in Hfin, Hord.
  induction k as [|k IH]; intros Hk; [done|].
  specialize (IH ltac:(lia)).
  rewrite seq_S, fold_left_app. cbn [fold_left].
  cbn zeta in IH.
  set (st := fold_left _ (seq 1 k) _) in *.
  rewrite scan_step_unfold. change (1 + k)%nat with (S k).
  destruct k as [|k'].
  - rewrite IH. cbn [snd lt_min fst].
    destruct (Hfin 1%nat ltac:(lia)) as [-> Hirr]. cbn [fst snd].
    split_and!; [done|lia|lia| |intros; lia].
    intros j Hj. by assert (j = 1%nat) as -> by lia.
  - destruct IH as (Hm & Hb & Hmin & Hfirst). rewrite Hm. cbn [lt_min].
    destruct (fltb (scan_diff items (S (S k'))) (scan_diff items st.1)) eqn:Hlt;
      cbn [fst snd].
    + split_and!; [done|lia|lia| |].
      * intros j Hj. destruct (decide (j = S (S k'))) as [->|Hne].
        -- apply Hfin. lia.
        -- destruct (fltb (scan_diff items j) _) eqn:Hj'; [|done].
           destruct (Hord j (S (S k')) st.1) as [Htr _]; [lia..|].
           specialize (Htr Hj' Hlt). rewrite Hmin in Htr by lia. done.
      * intros j Hj.
        destruct (fltb (scan_diff items (S (S k'))) (scan_diff items j)) eqn:Hj';
          [done|].
        destruct (Hord (S (S k')) j st.1) as [_ Hneg]; [lia..|].
        rewrite Hneg in Hlt; [done..|]. apply Hmin. lia.
    + split_and!; [done|lia|lia| |done].
      intros j Hj. destruct (decide (j = S (S k'))) as [->|Hne]; [done|].
      apply Hmin. lia.
Qed.

Lemma best_split_minimal items :
  (2 ≤ length items)%nat → scan_ordered items →
  (∀ j, (1 ≤ j < length items)%nat →
        fltb (scan_diff items j) (scan_diff items (best_split items)) = false)
  ∧ (∀ j, (1 ≤ j < best_split items)%nat →
          fltb (scan_diff items (best_split items)) (scan_diff items j) = true).
Proof.
  intros Hlen Hord.
  pose proof (scan_invariant items (length items - 1) Hord ltac:(lia)) as H.
  cbn zeta in H. fold (scan items) in H.
  destruct (length items - 1)%nat as [|k] eqn:Hk; [lia|].
  destruct H as (_ & _ & Hmin & Hfirst). fold (best_split items) in *.
  split; [|done]. intros j Hj. apply Hmin. lia.
Qed.

End scan_facts.

(** In exact arithmetic. *)

Lemma fltb_Qc (x y : Qc) : fltb x y = bool_decide (x < y)%Qc.
Proof. done. Qed.

Lemma fltb_Qc_true (x y : Qc) : fltb x y = true ↔ (x < y)%Qc.
Proof. rewrite fltb_Qc. apply bool_decide_eq_true. Qed.

Lemma fltb_Qc_false (x y : Qc) : fltb x y = false ↔ (y ≤ x)%Qc.
Proof.
  rewrite fltb_Qc, bool_decide_eq_false. split.
  - apply Qcnot_lt_le.
  - apply Qcle_not_lt.
Qed.

Lemma scan_ordered_Qc (items : list (item Qc)) : scan_ordered items.
Proof.
  split.
  - intros j _. split; [done|]. apply fltb_Qc_false, Qcle_refl.
  - intros i j k _ _ _. split.
    + rewrite !fltb_Qc_true. apply Qclt_trans.
    + rewrite !fltb_Qc_false. intros ? ?. by eapply Qcle_trans.
Qed.

Lemma py_sum_from (l : list Qc) (a : Qc) :
  fold_left Qcplus l a = (a + py_sum l)%Qc.
Proof.
  unfold py_sum. cbn [fadd fzero Qc_arith].
  revert a. induction l as [|x l IH]; intros a; simpl.
  - ring.
  - rewrite (IH (a + x)%Qc), (IH (0 + x)%Qc). ring.
Qed.

Lemma py_sum_app (l1 l2 : list Qc) :
  py_sum (l1 ++ l2) = (py_sum l1 + py_sum l2)%Qc.
Proof.
  unfold py_sum at 1. cbn [fadd fzero Qc_arith].
  rewrite fold_left_app, py_sum_from. f_equal.
Qed.

Lemma scan_diff_imbalance (items : list (item Qc)) i :
  scan_diff items i = imbalance items i.
Proof.
  unfold scan_diff, imbalance. cbn [fabs fsub Qc_arith]. cbn zeta. f_equal.
  rewrite <- (take_drop i items) at 2.
  rewrite fmap_app, py_sum_app. ring.
Qed.

(** C6 (counterexample): the text "abc" gives three symbols of probability
    1/3.  The distance between the sums of items [0,i) and [i,end) is the
    same at i = 1 and at i = 2, in binary64 as in exact arithmetic, so the
    claim asks for i = 1.  In binary64 the scan computes
    [total_prob - left_prob], and 1.0 - 0.3333333333333333 is
    0.6666666666666667, not the sum 0.6666666666666666 of the right group:
    the computed differences are 0.3333333333333334 at i = 1 and
    0.33333333333333326 at i = 2, and the scan picks 2.  (All three partial
    sums are the same with and without compensated summation.) *)
Lemma split_tie_binary64 :
  calculate_probabilities (F:=PrimFloat.float)
    (calculate_frequencies (lit "abc") false)
  = Return [(lit "a", fdiv 1 3); (lit "b", fdiv 1 3); (lit "c", fdiv 1 3)]
  ∧ sorted_desc [(lit "a", fdiv 1 3); (lit "b", fdiv 1 3); (lit "c", fdiv 1 3)]
    = [(lit "a", fdiv 1 3 : PrimFloat.float); (lit "b", fdiv 1 3); (lit "c", fdiv 1 3)]
  ∧ imbalance [(lit "a", fdiv 1 3 : PrimFloat.float); (lit "b", fdiv 1 3); (lit "c", fdiv 1 3)] 1
    = imbalance [(lit "a", fdiv 1 3 : PrimFloat.float); (lit "b", fdiv 1 3); (lit "c", fdiv 1 3)] 2
  ∧ best_split [(lit "a", fdiv 1 3 : PrimFloat.float); (lit "b", fdiv 1 3); (lit "c", fdiv 1 3)]
    = 2%nat
  ∧ codes_of (F:=PrimFloat.float) (lit "abc") false
    = Return [(lit "a", lit "00"); (lit "b", lit "01"); (lit "c", lit "1")]
  ∧ best_split [(lit "a", fdiv 1 3 : Qc); (lit "b", fdiv 1 3); (lit "c", fdiv 1 3)]
    = 1%nat.
Proof. vm_compute. by repeat split. Qed.

(** C6 (amended): on a sub-list of at least two items the split index
    chosen by the scan lies in 1 <= i < length, the two groups are the
    non-empty contiguous halves of the list at that index, and the recursion
    runs on the left group with the prefix extended by 0, then on the right
    group with the prefix extended by 1.  The index minimises the difference
    as the scan computes it, abs(left_prob - (total_prob - left_prob)), and
    is the smallest index that does, whenever these differences are finite
    and ordered by <.  In exact arithmetic they always are, and the computed
    difference is the distance between the summed probability of items [0,i)
    and of items [i,end): there the index minimises that distance and is the
    smallest index that does. *)
Theorem split_point_rule :
  (∀ `{Arith F} (items : list (item F)),
     (2 ≤ length items)%nat →
     let i := best_split items in
     (1 ≤ i < length items)%nat
     ∧ left_group items = take i items
     ∧ right_group items = drop i items
     ∧ left_group items ≠ []
     ∧ right_group items ≠ []
     ∧ left_group items ++ right_group items = items
     ∧ (∀ fuel code_prefix codes,
          divide_and_code (S fuel) items code_prefix codes
          = codes1 ← divide_and_code fuel (left_group items) (code_prefix ++ [bit0]) codes;
            divide_and_code fuel (right_group items) (code_prefix ++ [bit1]) codes1)
     ∧ (scan_ordered items →
        (∀ j, (1 ≤ j < length items)%nat →
              fltb (scan_diff items j) (scan_diff items i) = false)
        ∧ (∀ j, (1 ≤ j < i)%nat →
                fltb (scan_diff items i) (scan_diff items j) = true)))
  ∧ (∀ items : list (item Qc),
       (2 ≤ length items)%nat →
       let i := best_split items in
       scan_ordered items
       ∧ (∀ j, scan_diff items j = imbalance items j)
       ∧ (∀ j, (1 ≤ j < length items)%nat → (imbalance items i ≤ imbalance items j)%Qc)
       ∧ (∀ j, (1 ≤ j < i)%nat → (imbalance items i < imbalance items j)%Qc)).
Proof.
  split.
  - intros F arith items Hlen i. subst i.
    pose proof (best_split_bounds items Hlen) as Hb.
    pose proof (left_group_length items Hlen) as Hl.
    pose proof (right_group_length items Hlen) as Hr.
    split; [lia|]. split; [done|]. split; [done|].
    split; [intros Hnil; rewrite Hnil in Hl; simpl in Hl; lia|].
    split; [intros Hnil; rewrite Hnil in Hr; simpl in Hr; lia|].
    split; [apply left_right_group|].
    split; [|by apply best_split_minimal].
    intros fuel code_prefix codes. cbn [divide_and_code].
    rewrite decide_False by lia. done.
  - intros items Hlen i. subst i.
    pose proof (scan_ordered_Qc items) as Hord.
    pose proof (best_split_minimal items Hlen Hord) as [Hmin Hfirst].
    split; [done|]. split; [apply scan_diff_imbalance|].
    split; intros j Hj; rewrite <- !scan_diff_imbalance.
    + by apply fltb_Qc_false, Hmin.
    + by apply fltb_Qc_true, Hfirst.
Qed.

(** The items of "aaabbc" sorted: the scan picks index 1 (0.5 against 0.5). *)
Lemma split_point_rule_witness :
  best_split [(lit "a", Q2Qc (1 # 2)); (lit "b", Q2Qc (1 # 3)); (lit "c", Q2Qc (1 # 6))]
  = 1%nat
  ∧ (∀ j, (1 ≤ j < 3)%nat →
          (imbalance [(lit "a", Q2Qc (1 # 2)); (lit "b", Q2Qc (1 # 3)); (lit "c", Q2Qc (1 # 6))]
                     1
           ≤ imbalance [(lit "a", Q2Qc (1 # 2)); (lit "b", Q2Qc (1 # 3)); (lit "c", Q2Qc (1 # 6))]
                       j)%Qc).
Proof.
  split; [by vm_compute|].
  apply (proj2 split_point_rule
           [(lit "a", Q2Qc (1 # 2)); (lit "b", Q2Qc (1 # 3)); (lit "c", Q2Qc (1 # 6))]).
  simpl. lia.
Defined.

(** ** Determinism of the code assignment *)

Lemma insert_desc_Qc (x y : item Qc) l :
  insert_desc x (y :: l)
  = if decide (x.2 < y.2)%Qc then y :: insert_desc x l else x :: y :: l.
Proof.
  cbn [insert_desc fltb Qc_arith]. by case_bool_decide; case_decide.
Qed.

Lemma insert_desc_filter (q : Qc) (x : item Qc) l :
  filter (λ y : item Qc, y.2 = q) (insert_desc x l)
  = filter (λ y : item Qc, y.2 = q) (x :: l).
Proof.
  induction l as [|y l IH]; [done|]. rewrite insert_desc_Qc.
  destruct (decide (x.2 < y.2)%Qc) as [Hlt|Hge]; [|done].
  rewrite (filter_cons _ y), IH, !(filter_cons _ x), (filter_cons _ y).
  destruct (decide (x.2 = q)) as [Hx|Hx]; [|done].
  destruct (decide (y.2 = q)) as [Hy|Hy]; [|done].
  rewrite Hx, Hy in Hlt. by apply Qclt_not_eq in Hlt.
Qed.

Lemma sorted_desc_stable (q : Qc) (items : list (item Qc)) :
  filter (λ y : item Qc, y.2 = q) (sorted_desc items)
  = filter (λ y : item Qc, y.2 = q) items.
Proof.
  induction items as [|x l IH]; [done|]. cbn [sorted_desc foldr].
  fold (sorted_desc l). by rewrite insert_desc_filter, !filter_cons, IH.
Qed.

Lemma insert_desc_sorted (x : item Qc) l :
  StronglySorted desc l → StronglySorted desc (insert_desc x l).
Proof.
  induction 1 as [|y l Hs IH Hall].
  - by repeat constructor.
  - rewrite insert_desc_Qc. destruct (decide (x.2 < y.2)%Qc) as [Hlt|Hge].
    + constructor; [done|]. rewrite insert_desc_perm.
      constructor; [by apply Qclt_le_weak|done].
    + apply Qcnot_lt_le in Hge. constructor; [by constructor|].
      constructor; [done|].
      eapply Forall_impl; [exact Hall|]. intros z Hz. unfold desc in *.
      by eapply Qcle_trans.
Qed.

Lemma sorted_desc_sorted (items : list (item Qc)) :
  StronglySorted desc (sorted_desc items).
Proof.
  induction items as [|x l IH]; [constructor|]. by apply insert_desc_sorted.
Qed.

Section dict_update_facts.
Context {K V : Type} `{EqDecision K}.
Implicit Types (k : K) (v : V) (d l : dict K V).

Lemma dict_get_app k d1 d2 :
  dict_get k (d1 ++ d2)
  = match dict_get k d1 with Some v => Some v | None => dict_get k d2 end.
Proof.
  induction d1 as [|[k' v'] d1 IH]; simpl; [done|]. by case_decide.
Qed.

Lemma dict_update_cons k v l d :
  dict_update ((k, v) :: l) d = dict_update l (dict_set k v d).
Proof. done. Qed.

(** After a run of assignments a key holds the value assigned last. *)
Lemma dict_get_update k l d :
  dict_get k (dict_update l d)
  = match dict_get k (reverse l) with
    | Some v => Some v
    | None => dict_get k d
    end.
Proof.
  revert d. induction l as [|[k' v'] l IH]; intros d; [done|].
  rewrite dict_update_cons, IH, reverse_cons, dict_get_app.
  destruct (dict_get k (reverse l)); [done|]. simpl.
  destruct (decide (k = k')) as [->|Hne].
  - by rewrite dict_get_set_eq.
  - by rewrite dict_get_set_ne.
Qed.

Lemma dict_update_keys_present l d :
  (∀ k, k ∈ dict_keys l → k ∈ dict_keys d) →
  dict_keys (dict_update l d) = dict_keys d.
Proof.
  revert d. induction l as [|[k v] l IH]; intros d Hin; [done|].
  rewrite dict_update_cons.
  assert (Hk : k ∈ dict_keys d) by (apply Hin, list_elem_of_here).
  assert (Hset : dict_keys (dict_set k v d) = dict_keys d).
  { rewrite dict_keys_set. by rewrite decide_True. }
  rewrite IH, Hset; [done|]. intros k' Hk'. rewrite Hset.
  by apply Hin, list_elem_of_further.
Qed.

Lemma dict_ext d1 d2 :
  NoDup (dict_keys d1) → dict_keys d1 = dict_keys d2 →
  (∀ k, dict_get k d1 = dict_get k d2) → d1 = d2.
Proof.
  unfold dict_keys. revert d2.
  induction d1 as [|[k v] d1 IH]; intros [|[k2 v2] d2]; try done.
  rewrite !fmap_cons. intros [Hk Hnd]%NoDup_cons [= <- Hkeys] Hget.
  pose proof (Hget k) as Hgk. simpl in Hgk. rewrite !decide_True in Hgk by done.
  injection Hgk as <-. f_equal. apply IH; [done..|].
  intros k'. specialize (Hget k'). simpl in Hget.
  destruct (decide (k' = k)) as [->|Hne]; [|done].
  transitivity (@None V); [|symmetry].
  - by apply dict_get_None.
  - apply dict_get_None. unfold dict_keys. by rewrite <- Hkeys.
Qed.

Lemma dict_update_idem l d :
  NoDup (dict_keys d) → dict_update l (dict_update l d) = dict_update l d.
Proof.
  intros Hnd. symmetry. apply dict_ext.
  - by apply dict_update_NoDup.
  - symmetry. apply dict_update_keys_present.
    intros k Hk. apply dict_update_keys. by left.
  - intros k. rewrite (dict_get_update k l (dict_update l d)).
    rewrite dict_get_update. by destruct (dict_get k (reverse l)).
Qed.

End dict_update_facts.

(** C9: the code table is a function of the probability table as
    presented (items in insertion order) and of nothing else: equal tables
    give equal code tables, and a second call on the same encoder leaves the
    code table as the first call made it (whatever the float arithmetic).
    The sort it starts with is the stable descending sort: the sorted list
    is a rearrangement of the items and, in exact arithmetic, it is in
    descending order of probability and the items of any one probability
    keep their insertion order. *)
Theorem shannon_fano_coding_deterministic :
  (∀ `{Arith F} (probabilities : dict str F),
     sorted_desc probabilities ≡ₚ probabilities
     ∧ (∀ probabilities' : dict str F,
          probabilities' = probabilities →
          shannon_fano_coding probabilities' []
          = shannon_fano_coding probabilities [])
     ∧ (∃ codes,
          shannon_fano_coding probabilities [] = Return codes
          ∧ shannon_fano_coding probabilities codes = Return codes))
  ∧ (∀ probabilities : dict str Qc,
       StronglySorted desc (sorted_desc probabilities)
       ∧ (∀ q : Qc,
            filter (λ y : item Qc, y.2 = q) (sorted_desc probabilities)
            = filter (λ y : item Qc, y.2 = q) probabilities)).
Proof.
  split.
  - intros F arith probabilities.
    split; [apply sorted_desc_perm|].
    split; [by intros ? ->|].
    eexists. split; [apply shannon_fano_coding_assignments|].
    rewrite shannon_fano_coding_assignments. f_equal.
    apply dict_update_idem, NoDup_nil_2.
  - intros probabilities.
    split; [apply sorted_desc_sorted|].
    intros q; apply sorted_desc_stable.
Qed.

(** Three symbols of one probability keep their order; the fourth, more
    probable, moves to the front. *)
Example sorted_desc_ties :
  (sorted_desc [(lit "x", Q2Qc (1 # 5)); (lit "y", Q2Qc (1 # 5));
                (lit "z", Q2Qc (1 # 5)); (lit "w", Q2Qc (2 # 5))]).*1
  = [lit "w"; lit "x"; lit "y"; lit "z"].
Proof. by vm_compute. Qed.

(** ** Symbols of a text *)

Lemma py_range_step2 (n : Z) :
  0 ≤ n → py_range 0 (n + 1) 2 = 0 :: (Z.add 2 <$> py_range 0 (n - 1) 2).
Proof.
  intros Hn. unfold py_range.
  replace ((n + 1 - 0 + 2 - 1) / 2) with (n / 2 + 1).
  2:{ replace (n + 1 - 0 + 2 - 1) with (n + 1 * 2) by lia.
      by rewrite Z.div_add by lia. }
  replace ((n - 1 - 0 + 2 - 1) / 2) with (n / 2) by (f_equal; lia).
  assert (0 ≤ n / 2) by (apply Z.div_pos; lia).
  rewrite Z2Nat.inj_add by lia. change (Z.to_nat 1) with 1%nat.
  rewrite Nat.add_1_r. cbn [seq fmap list_fmap]. f_equal.
  rewrite <- fmap_S_seq, <- !list_fmap_compose.
  apply list_fmap_ext. intros _ k _. simpl. lia.
Qed.

Lemma pairs_body_cons2 a b t : pairs_body (a :: b :: t) = [a; b] :: pairs_body t.
Proof.
  unfold pairs_body.
  replace (len (a :: b :: t) - 1) with (len t + 1) by (unfold len; simpl; lia).
  rewrite py_range_step2 by (unfold len; lia).
  rewrite fmap_cons, concat_cons.
  rewrite bool_decide_true by (unfold len; simpl; lia).
  cbn [app]. f_equal. rewrite <- list_fmap_compose. f_equal.
  apply list_fmap_ext. intros j i Hi.
  assert (0 ≤ i).
  { apply list_elem_of_lookup_2 in Hi. unfold py_range in Hi.
    apply list_elem_of_fmap in Hi as (k & -> & _). lia. }
  simpl. unfold len. cbn [length]. rewrite Nat2Z.inj_succ, Nat2Z.inj_succ.
  destruct (bool_decide (i + 1 < Z.of_nat (length t))) eqn:Hc.
  - rewrite bool_decide_true by (apply bool_decide_eq_true in Hc; lia).
    f_equal. unfold py_slice.
    replace (2 + i + 2 - (2 + i)) with (i + 2 - i) by lia.
    replace (Z.to_nat (2 + i)) with (S (S (Z.to_nat i))) by lia. done.
  - rewrite bool_decide_false by (apply bool_decide_eq_false in Hc; lia). done.
Qed.

Lemma pairs_body_short t : (length t ≤ 1)%nat → pairs_body t = [].
Proof. by destruct t as [|a [|b t]]; simpl; [..|lia]. Qed.

(** Induction over a text two characters at a time. *)
Lemma pair_ind (P : str → Prop) :
  P [] → (∀ a, P [a]) → (∀ a b t, P t → P (a :: b :: t)) → ∀ t, P t.
Proof.
  intros H0 H1 H2.
  assert (∀ t, P t ∧ ∀ a, P (a :: t)) as H; [|intros t; apply H].
  induction t as [|b t [IH1 IH2]]; [by split|].
  split; [apply IH2|]. intros a. by apply H2.
Qed.

Lemma pairs_list_pairs_of t : pairs_list t = pairs_of t.
Proof.
  induction t as [|a|a b t IH] using pair_ind; [done..|].
  unfold pairs_list in *. rewrite pairs_body_cons2. cbn [pairs_of].
  rewrite <- IH.
  replace (len (a :: b :: t)) with (len t + 1 * 2) by (unfold len; simpl; lia).
  rewrite Z.mod_add by lia.
  case_bool_decide; [|done]. cbn [app]. do 2 f_equal.
  unfold padded_last. rewrite !last_cons. destruct (last t) eqn:Hl; [done|].
  apply last_None in Hl as ->. done.
Qed.

Lemma calculate_frequencies_symbols t pairs :
  calculate_frequencies t pairs = Counter (symbols t pairs).
Proof.
  unfold calculate_frequencies, symbols.
  destruct pairs; [|done]. by rewrite pairs_list_pairs_of.
Qed.

Lemma symbols_length t pairs s :
  s ∈ symbols t pairs → length s = if pairs then 2%nat else 1%nat.
Proof.
  unfold symbols. destruct pairs.
  - induction t as [|a|a b t IH] using pair_ind; cbn [pairs_of].
    + by intros ?%elem_of_nil.
    + by intros ->%list_elem_of_singleton.
    + intros [->|?]%elem_of_cons; [done|by apply IH].
  - by intros (c & -> & _)%list_elem_of_fmap.
Qed.

Lemma symbols_nonempty t pairs : t ≠ [] → symbols t pairs ≠ [].
Proof. unfold symbols. by destruct pairs, t as [|a [|b t]]. Qed.

(** ** Frequencies and probabilities *)

Lemma py_sum_int_from (l : list Z) (a : Z) :
  fold_left Z.add l a = a + py_sum_int l.
Proof.
  unfold py_sum_int. revert a. induction l as [|x l IH]; intros a; simpl.
  - lia.
  - rewrite (IH (a + x)), (IH (0 + x)). lia.
Qed.

Lemma py_sum_int_cons x l : py_sum_int (x :: l) = x + py_sum_int l.
Proof. unfold py_sum_int at 1. simpl. apply py_sum_int_from. Qed.

Section counter_facts.
Context {K : Type} `{EqDecision K}.
Implicit Types (k : K) (d : dict K Z) (xs : list K).

Lemma Counter_fold xs : Counter xs = fold_left count_step xs [].
Proof. done. Qed.

Lemma sum_values_set k (v : Z) d :
  py_sum_int (dict_values (dict_set k v d))
  = py_sum_int (dict_values d) - default 0 (dict_get k d) + v.
Proof.
  unfold dict_values. induction d as [|[k' v'] d IH]; cbn [dict_set dict_get].
  - rewrite fmap_cons, py_sum_int_cons. unfold py_sum_int. simpl. lia.
  - destruct (decide (k = k')) as [->|Hne];
      rewrite !fmap_cons, !py_sum_int_cons; cbn [snd].
    + simpl. lia.
    + rewrite IH. lia.
Qed.

Lemma count_fold_sum xs d :
  py_sum_int (dict_values (fold_left count_step xs d))
  = py_sum_int (dict_values d) + len xs.
Proof.
  revert d. induction xs as [|x xs IH]; intros d; simpl.
  - unfold len. simpl. lia.
  - rewrite IH. unfold count_step. rewrite sum_values_set.
    unfold len. simpl length. lia.
Qed.

Lemma count_fold_keys xs d k :
  k ∈ dict_keys (fold_left count_step xs d) ↔ k ∈ xs ∨ k ∈ dict_keys d.
Proof.
  revert d. induction xs as [|x xs IH]; intros d; simpl.
  - rewrite elem_of_nil. naive_solver.
  - rewrite IH. unfold count_step. rewrite dict_keys_set, elem_of_cons.
    case_decide as Hin.
    + split; [naive_solver|]. intros [[->|?]|?]; auto.
    + rewrite elem_of_app, list_elem_of_singleton. naive_solver.
Qed.

Lemma Counter_sum xs : py_sum_int (dict_values (Counter xs)) = len xs.
Proof. rewrite Counter_fold, count_fold_sum. done. Qed.

Lemma Counter_keys xs k : k ∈ dict_keys (Counter xs) ↔ k ∈ xs.
Proof.
  rewrite Counter_fold, count_fold_keys. unfold dict_keys. simpl.
  rewrite elem_of_nil. naive_solver.
Qed.

End counter_facts.

Lemma omap_list_Return {A B} (f : A → outcome B) (g : A → B) l :
  (∀ x, x ∈ l → f x = Return (g x)) → omap_list f l = Return (g <$> l).
Proof.
  induction l as [|x l IH]; intros Hf; simpl; [done|].
  rewrite Hf by apply list_elem_of_here. simpl.
  rewrite IH; [done|]. intros y Hy. by apply Hf, list_elem_of_further.
Qed.

Section pipeline_facts.
Context {F : Type} {arith : Arith F}.

Lemma calculate_probabilities_Return frequencies :
  py_sum_int (dict_values frequencies) ≠ 0 →
  ∃ probabilities : dict str F,
    calculate_probabilities frequencies = Return probabilities
    ∧ dict_keys probabilities = dict_keys frequencies.
Proof.
  intros Htotal. unfold calculate_probabilities. cbn zeta.
  set (total := py_sum_int (dict_values frequencies)) in *.
  exists ((λ cf : list N * Z, (cf.1, fdiv cf.2 total)) <$> frequencies).
  split.
  - apply omap_list_Return. intros [c fr] _. unfold py_truediv.
    by rewrite decide_False.
  - unfold dict_keys. rewrite <- list_fmap_compose. done.
Qed.

(** ** What the pipeline builds *)

Lemma shannon_fano_coding_spec (probabilities : dict str F) :
  ∃ codes,
    shannon_fano_coding probabilities [] = Return codes
    ∧ (∀ s, s ∈ dict_keys codes ↔ s ∈ dict_keys probabilities)
    ∧ NoDup (dict_keys codes)
    ∧ prefix_free codes
    ∧ (∀ s c, dict_get s codes = Some c → c ≠ [] ∧ Forall is_bit c).
Proof.
  eexists. split; [apply shannon_fano_coding_assignments|].
  split_and!.
  - intros s. rewrite dict_update_keys, assignments_keys by lia.
    unfold dict_keys. rewrite sorted_desc_perm, elem_of_nil. naive_solver.
  - apply dict_update_NoDup. apply NoDup_nil_2.
  - apply assignments_prefix_free. lia.
  - intros s c [Hin|?]%dict_update_get_Some; [|done].
    apply assignments_codes in Hin as (_ & ? & Hbits); [|lia].
    split; [done|]. by apply Hbits.
Qed.

Lemma build_spec (t : str) (pairs : bool) :
  t ≠ [] →
  ∃ e : encoder F,
    build t pairs = Return e
    ∧ text e = t
    ∧ frequencies e = calculate_frequencies t pairs
    ∧ (∀ s, s ∈ dict_keys (codes e) ↔ s ∈ symbols t pairs)
    ∧ NoDup (dict_keys (codes e))
    ∧ prefix_free (codes e)
    ∧ (∀ s c, dict_get s (codes e) = Some c → c ≠ [] ∧ Forall is_bit c).
Proof.
  intros Ht. unfold build.
  destruct (calculate_probabilities_Return (calculate_frequencies t pairs))
    as (p & Hp & Hkeys).
  { rewrite calculate_frequencies_symbols, Counter_sum.
    pose proof (symbols_nonempty t pairs Ht).
    unfold len. destruct (symbols t pairs); [done|]. simpl. lia. }
  destruct (shannon_fano_coding_spec p) as (c & Hc & Hck & Hnd & Hpf & Hne).
  rewrite Hp. cbn [mbind outcome_bind]. rewrite Hc. cbn [mbind outcome_bind].
  eexists. split; [done|]. cbn [text frequencies codes].
  split_and!; try done.
  intros s. rewrite Hck, Hkeys, calculate_frequencies_symbols.
  apply Counter_keys.
Qed.

End pipeline_facts.

(** ** Encoding *)

Lemma fold_left_guarded {A B C} (c : B → bool) (h : B → C) (g : A → C → A)
    (l : list B) (e : A) :
  fold_left (λ a i, if c i then g a (h i) else a) l e
  = fold_left g (concat ((λ i, if c i then [h i] else []) <$> l)) e.
Proof.
  revert e. induction l as [|i l IH]; intros e; [done|].
  rewrite fmap_cons, concat_cons, fold_left_app. cbn [fold_left].
  rewrite IH. by destruct (c i).
Qed.

Lemma fold_left_mapped {A B C} (h : B → C) (g : A → C → A) (l : list B) (e : A) :
  fold_left (λ a i, g a (h i)) l e = fold_left g (h <$> l) e.
Proof. revert e. induction l as [|i l IH]; intros e; [done|]. apply IH. Qed.

Lemma encode_text_symbols text codes :
  codes ≠ [] →
  encode_text text codes = fold_left (emit codes) (symbols text (is_pairs codes)) [].
Proof.
  intros Hc. unfold encode_text, symbols. destruct codes as [|kv codes]; [done|].
  destruct (is_pairs (kv :: codes)).
  - rewrite <- pairs_list_pairs_of. unfold pairs_list, pairs_body.
    rewrite (fold_left_guarded (λ i, bool_decide (i + 1 < len text))
               (λ i, py_slice text i (i + 2)) (emit (kv :: codes))).
    case_bool_decide; [|done]. by rewrite fold_left_app.
  - apply (fold_left_mapped (λ c, [c]) (emit (kv :: codes))).
Qed.

Lemma fold_emit codes syms e :
  (∀ s, s ∈ syms → is_Some (dict_get s codes)) →
  fold_left (emit codes) syms e = e ++ concat (code_of codes <$> syms).
Proof.
  revert e. induction syms as [|s syms IH]; intros e Hin; simpl.
  - by rewrite app_nil_r.
  - rewrite IH by (intros; apply Hin; by apply list_elem_of_further).
    destruct (Hin s) as [c Hc]; [apply list_elem_of_here|].
    unfold emit, code_of. rewrite Hc. simpl. by rewrite app_assoc.
Qed.

(** ** Decoding *)

Lemma reverse_codes_update codes :
  reverse_codes codes = dict_update (prod_swap <$> codes) [].
Proof.
  unfold reverse_codes, dict_update. generalize (@nil (list N * list N)).
  induction codes as [|[s c] codes IH]; intros d; [done|]. simpl. apply IH.
Qed.

Lemma decode_step_emitted text rev decoded current bit :
  decode_step text rev (decoded, current) bit
  = match dict_get (current ++ [bit]) rev with
    | Some sym => (decoded ++ emitted text decoded sym, [])
    | None => (decoded, current ++ [bit])
    end.
Proof.
  unfold decode_step, emitted. destruct (dict_get _ rev) as [sym|]; [|done].
  case_decide; [|done]. by case_match.
Qed.

Section decoding.
Context (text : str) (codes : dict str str).
Hypothesis Hnd : NoDup (dict_keys codes).
Hypothesis Hpf : prefix_free codes.
Hypothesis Hne : ∀ s c, dict_get s codes = Some c → c ≠ [].

Lemma reverse_codes_Some c s :
  dict_get c (reverse_codes codes) = Some s → dict_get s codes = Some c.
Proof.
  rewrite reverse_codes_update. intros [Hin|?]%dict_update_get_Some; [|done].
  apply list_elem_of_fmap in Hin as ([s' c'] & [= -> ->] & Hin).
  by apply dict_get_elem_NoDup.
Qed.

Lemma reverse_codes_code s c :
  dict_get s codes = Some c → dict_get c (reverse_codes codes) = Some s.
Proof.
  intros Hs.
  assert (is_Some (dict_get c (reverse_codes codes))) as [s' Hs'].
  { apply dict_get_is_Some. rewrite reverse_codes_update.
    apply dict_update_keys. left. unfold dict_keys.
    rewrite <- list_fmap_compose. apply list_elem_of_fmap.
    exists (s, c). split; [done|]. by apply dict_get_Some_elem. }
  rewrite Hs'. f_equal.
  destruct (decide (s' = s)) as [|Hdiff]; [done|].
  apply reverse_codes_Some in Hs'.
  by destruct (Hpf s' s c c Hs' Hs) as [_ []].
Qed.

Lemma reverse_codes_proper_prefix s c p :
  dict_get s codes = Some c → p `prefix_of` c → p ≠ c →
  dict_get p (reverse_codes codes) = None.
Proof.
  intros Hs Hp Hpc. destruct (dict_get p (reverse_codes codes)) as [s'|] eqn:Hp';
    [|done].
  apply reverse_codes_Some in Hp'.
  by destruct (Hpf s' s p c Hp' Hs) as [[] _].
Qed.

(** From an empty buffer the bits of one code emit its symbol and leave the
    buffer empty; [current] is the part of the code already read. *)
Lemma decode_one s c decoded rest current :
  dict_get s codes = Some c → current ++ rest = c → rest ≠ [] →
  fold_left (decode_step text (reverse_codes codes)) rest (decoded, current)
  = (decoded ++ emitted text decoded s, []).
Proof.
  intros Hs. revert current.
  induction rest as [|bit rest IH]; intros current Hc Hrest; [done|].
  cbn [fold_left]. rewrite decode_step_emitted.
  destruct rest as [|bit' rest].
  - rewrite Hc, (reverse_codes_code s c Hs). done.
  - rewrite (reverse_codes_proper_prefix s c (current ++ [bit])); [|done| |].
    + apply IH; [|done]. by rewrite <- app_assoc.
    + exists (bit' :: rest). by rewrite <- app_assoc.
    + intros Heq. rewrite <- Hc in Heq.
      apply (f_equal length) in Heq. rewrite !length_app in Heq.
      simpl in Heq. lia.
Qed.

Lemma decode_symbols syms decoded :
  (∀ s, s ∈ syms → is_Some (dict_get s codes)) →
  fold_left (decode_step text (reverse_codes codes))
            (concat (code_of codes <$> syms)) (decoded, [])
  = (fold_left (λ d s, d ++ emitted text d s) syms decoded, []).
Proof.
  revert decoded. induction syms as [|s syms IH]; intros decoded Hin; [done|].
  rewrite fmap_cons, concat_cons, fold_left_app.
  destruct (Hin s) as [c Hc]; [apply list_elem_of_here|].
  assert (code_of codes s = c) as -> by (unfold code_of; by rewrite Hc).
  rewrite (decode_one s c decoded c []); [|done|done|by eapply Hne].
  cbn [fold_left]. apply IH. intros; apply Hin; by apply list_elem_of_further.
Qed.

End decoding.

Lemma emitted_single text decoded c : emitted text decoded [c] = [c].
Proof. done. Qed.

Lemma decoded_singles text t decoded :
  fold_left (λ d s, d ++ emitted text d s) ((λ c, [c]) <$> t) decoded
  = decoded ++ t.
Proof.
  revert decoded. induction t as [|c t IH]; intros decoded; simpl.
  - by rewrite app_nil_r.
  - rewrite IH, emitted_single, <- app_assoc. done.
Qed.

(** A full pair is emitted whole: at least two characters are still
    missing, so [decoded] is not yet one short of the text. *)
Lemma emitted_full_pair pre a b suf :
  emitted (pre ++ a :: b :: suf) pre [a; b] = [a; b].
Proof.
  unfold emitted. rewrite decide_True by done.
  rewrite (bool_decide_false (len pre = _)); [by rewrite andb_false_r|].
  unfold len. rewrite length_app. simpl. lia.
Qed.

(** The padded pair, met when exactly the last character is missing, is
    emitted without its pad. *)
Lemma emitted_padded_pair pre a :
  len pre `mod` 2 = 0 → emitted (pre ++ [a]) pre [a; space] = [a].
Proof.
  intros Heven. unfold emitted. rewrite decide_True by done.
  rewrite !bool_decide_true; [done| | |done].
  - unfold len. rewrite length_app. simpl. lia.
  - unfold len in *. rewrite length_app. simpl length.
    rewrite Nat2Z.inj_add. change (Z.of_nat 1) with 1.
    rewrite <- Zplus_mod_idemp_l, Heven. done.
Qed.

Lemma decoded_pairs suf pre :
  len pre `mod` 2 = 0 →
  fold_left (λ d s, d ++ emitted (pre ++ suf) d s) (pairs_of suf) pre
  = pre ++ suf.
Proof.
  revert pre. induction suf as [|a|a b suf IH] using pair_ind;
    intros pre Heven; cbn [pairs_of fold_left].
  - by rewrite app_nil_r.
  - by rewrite emitted_padded_pair.
  - rewrite emitted_full_pair.
    replace (pre ++ a :: b :: suf) with ((pre ++ [a; b]) ++ suf)
      by (by rewrite <- app_assoc).
    apply IH. unfold len in *. rewrite length_app. simpl length.
    rewrite Nat2Z.inj_add. change (Z.of_nat 2) with (1 * 2).
    by rewrite Z.mod_add.
Qed.

Lemma decoded_symbols t pairs :
  fold_left (λ d s, d ++ emitted t d s) (symbols t pairs) [] = t.
Proof.
  unfold symbols. destruct pairs.
  - by apply (decoded_pairs t []).
  - apply decoded_singles.
Qed.

(** ** Round trip *)

Lemma is_pairs_symbols t pairs codes :
  codes ≠ [] →
  (∀ s, s ∈ dict_keys codes → s ∈ symbols t pairs) →
  is_pairs codes = pairs.
Proof.
  intros Hc Hkeys. destruct codes as [|[k c] codes]; [done|].
  unfold is_pairs. rewrite bool_decide_true by (unfold len; simpl; lia).
  cbn [andb dict_keys fmap list_fmap head fst].
  rewrite (symbols_length t pairs k) by apply Hkeys, list_elem_of_here.
  by destruct pairs.
Qed.

Lemma codec_roundtrip t pairs codes :
  t ≠ [] →
  (∀ s, s ∈ dict_keys codes ↔ s ∈ symbols t pairs) →
  NoDup (dict_keys codes) →
  prefix_free codes →
  (∀ s c, dict_get s codes = Some c → c ≠ []) →
  decode_text t codes (encode_text t codes) = t.
Proof.
  intros Ht Hkeys Hnd Hpf Hne.
  pose proof (symbols_nonempty t pairs Ht) as Hsyms.
  assert (Hcodes : codes ≠ []).
  { intros ->. destruct (symbols t pairs) as [|s l]; [done|].
    by apply (elem_of_nil s), Hkeys, list_elem_of_here. }
  assert (Hall : ∀ s, s ∈ symbols t pairs → is_Some (dict_get s codes)).
  { intros s Hs. by apply dict_get_is_Some, Hkeys. }
  rewrite encode_text_symbols by done.
  rewrite (is_pairs_symbols t pairs) by (done || apply Hkeys).
  rewrite fold_emit by done. cbn [app].
  assert (Hloop :
    decode_loop t codes (concat (code_of codes <$> symbols t pairs)) = (t, [])).
  { unfold decode_loop. rewrite (decode_symbols t codes Hnd Hpf Hne) by done.
    by rewrite decoded_symbols. }
  unfold decode_text. destruct codes as [|kv codes]; [done|].
  destruct (concat _) as [|b bits] eqn:Henc; [|by rewrite Hloop].
  destruct (symbols t pairs) as [|s l]; [done|].
  rewrite fmap_cons, concat_cons in Henc. apply app_eq_nil in Henc as [Hs _].
  destruct (Hall s) as [c Hc]; [apply list_elem_of_here|].
  unfold code_of in Hs. rewrite Hc in Hs. by apply Hne in Hc.
Qed.

(** C1: for every non-empty text and either mode, the pipeline runs to
    completion and decoding the encoded text, with the code table built
    from the text's own frequency table, gives back exactly the text. *)
Theorem roundtrip_correct `{Arith F} (t : str) (pairs : bool) :
  t ≠ [] → roundtrip (F:=F) t pairs = Return t.
Proof.
  intros Ht. unfold roundtrip.
  destruct (build_spec (F:=F) t pairs Ht)
    as (e & -> & Htext & _ & Hkeys & Hnd & Hpf & Hne).
  cbn [mbind outcome_bind]. f_equal. unfold decoded_of, encoded_of.
  rewrite Htext. apply (codec_roundtrip t pairs); try done.
  intros s c Hs. by apply Hne in Hs as [? _].
Qed.

Lemma roundtrip_correct_witness :
  roundtrip (F:=Qc) (lit "hello world") true = Return (lit "hello world")
  ∧ roundtrip (F:=Qc) (lit "hello") false = Return (lit "hello").
Proof.
  split.
  - apply (roundtrip_correct (F:=Qc) (lit "hello world") true). done.
  - apply (roundtrip_correct (F:=Qc) (lit "hello") false). done.
Defined.

(** ** Empty input *)

Lemma calculate_entropy_Return `{Arith F} (log2 : F → F)
    (probabilities : dict str F) :
  ∃ h, calculate_entropy log2 probabilities = Return h.
Proof.
  unfold calculate_entropy. eexists.
  rewrite (omap_list_Return _ (λ p, fmul p (log2 p))); [done|].
  intros p [Hp _]%list_elem_of_filter. unfold py_log2. by rewrite Hp.
Qed.

Lemma encode_text_empty codes : encode_text [] codes = [].
Proof.
  unfold encode_text. destruct codes as [|kv codes]; [done|].
  by destruct (is_pairs _).
Qed.

Lemma decode_text_empty text codes : decode_text text codes [] = [].
Proof. by destruct codes. Qed.

(** The model can raise: a table whose counts sum to zero divides by zero. *)
Example calculate_probabilities_zero_total :
  calculate_probabilities (F:=Qc) [(lit "a", 0)] = Raise ZeroDivisionError.
Proof. reflexivity. Qed.

(** C8: on the zero-length text, in either mode and whatever the float
    arithmetic, frequency counting, probability computation and code
    construction return the empty table and entropy returns minus the empty
    sum, which is zero (shown in exact arithmetic); nothing is raised: no
    division is evaluated, and the logarithm is only taken of positive
    probabilities, on any table.  Encoding the empty text and decoding the
    empty bit string give the empty string, whatever the code table. *)
Theorem empty_input_total `{Arith F} (log2 : F → F) (pairs : bool) :
  calculate_frequencies [] pairs = []
  ∧ calculate_probabilities (F:=F) [] = Return []
  ∧ calculate_entropy log2 [] = Return (fneg fzero)
  ∧ (∀ log2' : Qc → Qc, calculate_entropy log2' [] = Return 0%Qc)
  ∧ (∀ probabilities, ∃ h, calculate_entropy log2 probabilities = Return h)
  ∧ shannon_fano_coding (F:=F) [] [] = Return []
  ∧ build (F:=F) [] pairs
    = Return {| text := []; frequencies := []; probabilities := []; codes := [] |}
  ∧ (∀ codes, encode_text [] codes = [])
  ∧ (∀ text codes, decode_text text codes [] = [])
  ∧ roundtrip (F:=F) [] pairs = Return [].
Proof.
  split; [by destruct pairs|].
  split; [done|].
  split; [done|].
  split; [done|].
  split; [apply calculate_entropy_Return|].
  split; [done|].
  split; [by destruct pairs|].
  split; [apply encode_text_empty|].
  split; [apply decode_text_empty|].
  by destruct pairs.
Qed.

(** ** Padding in pair mode *)

Lemma pairs_of_app pre suf :
  len pre `mod` 2 = 0 → pairs_of (pre ++ suf) = pairs_of pre ++ pairs_of suf.
Proof.
  induction pre as [|a|a b pre IH] using pair_ind; intros Heven.
  - done.
  - by vm_compute in Heven.
  - cbn [app pairs_of]. f_equal. apply IH.
    replace (len (a :: b :: pre)) with (len pre + 1 * 2) in Heven
      by (unfold len; simpl; lia).
    by rewrite Z.mod_add in Heven.
Qed.

Lemma odd_text_split (t : str) :
  len t `mod` 2 = 1 → ∃ pre c, t = pre ++ [c] ∧ len pre `mod` 2 = 0.
Proof.
  intros Hodd. destruct t as [|c t _] using rev_ind; [by vm_compute in Hodd|].
  exists t, c. split; [done|].
  unfold len in *. rewrite length_app, Nat2Z.inj_add in Hodd.
  change (Z.of_nat (length [c])) with 1 in Hodd.
  revert Hodd. generalize (Z.of_nat (length t)). intros n Hodd.
  Z.to_euclidean_division_equations. lia.
Qed.

Lemma decode_step_pad text rev decoded current bit x :
  len text `mod` 2 = 1 →
  dict_get (current ++ [bit]) rev = Some [x; space] →
  len decoded = len text - 1 →
  decode_step text rev (decoded, current) bit = (decoded ++ [x], []).
Proof.
  intros Hodd Hget Hlen. rewrite decode_step_emitted, Hget.
  unfold emitted. rewrite decide_True by done.
  by rewrite !bool_decide_true.
Qed.

(** C4: for every odd-length text in pair mode, the symbols counted are
    the pairs of the text without its last character followed by the symbol
    made of the last character and one space, which is a key of the
    frequency table; in decoding such a text, when the buffer matches a
    pair ending in a space (so the padded pair) and the decoded output is
    one character short of the text, only the first character of the pair
    is appended; and the round trip returns the text, without the pad. *)
Theorem pair_mode_padding `{Arith F} (text : str) :
  len text `mod` 2 = 1 →
  ∃ pre c,
    text = pre ++ [c]
    ∧ pairs_list text = pairs_list pre ++ [[c; space]]
    ∧ [c; space] ∈ dict_keys (calculate_frequencies text true)
    ∧ (∀ rev decoded current bit x,
         dict_get (current ++ [bit]) rev = Some [x; space] →
         len decoded = len text - 1 →
         decode_step text rev (decoded, current) bit = (decoded ++ [x], []))
    ∧ roundtrip (F:=F) text true = Return text.
Proof.
  intros Hodd. destruct (odd_text_split text Hodd) as (pre & c & -> & Heven).
  exists pre, c.
  assert (Hsyms : pairs_list (pre ++ [c]) = pairs_list pre ++ [[c; space]]).
  { by rewrite !pairs_list_pairs_of, pairs_of_app. }
  split; [done|]. split; [done|].
  split.
  { unfold calculate_frequencies. apply Counter_keys. rewrite Hsyms.
    apply elem_of_app. right. apply list_elem_of_here. }
  split.
  { intros rev decoded current bit x. by apply decode_step_pad. }
  destruct (build_spec (F:=F) (pre ++ [c]) true)
    as (e & He & Htext & _ & Hkeys & Hnd & Hpf & Hne); [by destruct pre|].
  unfold roundtrip. rewrite He. cbn [mbind outcome_bind]. f_equal.
  unfold decoded_of, encoded_of. rewrite Htext.
  apply (codec_roundtrip _ true); try done; [by destruct pre|].
  intros s c' Hs. by apply Hne in Hs as [? _].
Qed.

Lemma pair_mode_padding_witness :
  calculate_frequencies (lit "abc") true = [(lit "ab", 1); (lit "c ", 1)]
  ∧ ∃ pre c,
      lit "abc" = pre ++ [c]
      ∧ pairs_list (lit "abc") = pairs_list pre ++ [[c; space]]
      ∧ [c; space] ∈ dict_keys (calculate_frequencies (lit "abc") true)
      ∧ (∀ rev decoded current bit x,
           dict_get (current ++ [bit]) rev = Some [x; space] →
           len decoded = len (lit "abc") - 1 →
           decode_step (lit "abc") rev (decoded, current) bit = (decoded ++ [x], []))
      ∧ roundtrip (F:=Qc) (lit "abc") true = Return (lit "abc").
Proof.
  split; [reflexivity|].
  apply (pair_mode_padding (F:=Qc) (lit "abc")). reflexivity.
Defined.

(** ** Bit strings that are not encodings *)

(** Bits that match no code only grow the buffer. *)
Lemma decode_unmatched text rev decoded r current :
  (∀ p, p ≠ [] → p `prefix_of` r → dict_get (current ++ p) rev = None) →
  fold_left (decode_step text rev) r (decoded, current)
  = (decoded, current ++ r).
Proof.
  revert current. induction r as [|bit r IH]; intros current Hr; cbn [fold_left].
  - by rewrite app_nil_r.
  - rewrite decode_step_emitted, (Hr [bit]); [|done|].
    2:{ exists r. done. }
    rewrite IH; [by rewrite <- app_assoc|].
    intros p Hp Hpre. rewrite <- app_assoc. apply Hr; [done|].
    by apply prefix_cons.
Qed.

(** C3 (counterexample): with the code table of "aaabbc" (a: 0, b: 10, c: 11,
    in binary64 as in exact arithmetic)
    the bit string 01 leaves the unmatched remainder 1, and the string 20
    never matches a code nor a prefix of one; in both cases [decode_text]
    returns an ordinary string, the same one as for the intact input (0,
    respectively the empty string): the caller is told of no failure and
    the remainder is dropped. *)
Lemma decode_text_silent_on_corruption :
  codes_of (F:=PrimFloat.float) (lit "aaabbc") false
  = Return [(lit "a", lit "0"); (lit "b", lit "10"); (lit "c", lit "11")]
  ∧ codes_of (F:=Qc) (lit "aaabbc") false
    = Return [(lit "a", lit "0"); (lit "b", lit "10"); (lit "c", lit "11")]
  ∧ decode_loop (lit "aaabbc") [(lit "a", lit "0"); (lit "b", lit "10"); (lit "c", lit "11")]
                (lit "01")
    = (lit "a", lit "1")
  ∧ decode_text (lit "aaabbc") [(lit "a", lit "0"); (lit "b", lit "10"); (lit "c", lit "11")]
                (lit "01")
    = decode_text (lit "aaabbc") [(lit "a", lit "0"); (lit "b", lit "10"); (lit "c", lit "11")]
                  (lit "0")
  ∧ decode_loop (lit "aaabbc") [(lit "a", lit "0"); (lit "b", lit "10"); (lit "c", lit "11")]
                (lit "20")
    = ([], lit "20")
  ∧ decode_text (lit "aaabbc") [(lit "a", lit "0"); (lit "b", lit "10"); (lit "c", lit "11")]
                (lit "20")
    = [].
Proof. by vm_compute. Qed.

(** C3 (amended): [decode_text] has no failure result.  For every bit
    sequence made of a part that decodes with an empty buffer followed by a
    remainder of which no non-empty prefix is a code, the loop ends with
    that remainder in the buffer, and [decode_text] returns exactly what it
    returns for the part before the remainder: the remainder is dropped
    without notice. *)
Theorem decode_text_drops_remainder (text : str) (codes : dict str str)
    (bits r : str) :
  (decode_loop text codes bits).2 = [] →
  (∀ p, p ≠ [] → p `prefix_of` r → dict_get p (reverse_codes codes) = None) →
  decode_loop text codes (bits ++ r) = ((decode_loop text codes bits).1, r)
  ∧ decode_text text codes (bits ++ r) = decode_text text codes bits.
Proof.
  intros Hbuf Hr.
  assert (Hloop :
    decode_loop text codes (bits ++ r) = ((decode_loop text codes bits).1, r)).
  { unfold decode_loop in *. rewrite fold_left_app.
    destruct (fold_left _ bits _) as [decoded current]. simpl in Hbuf.
    subst current. by rewrite decode_unmatched. }
  split; [done|]. unfold decode_text.
  destruct codes as [|kv codes]; [done|].
  destruct bits as [|b bits].
  - cbn [app]. destruct r as [|b r]; [done|].
    cbn [app] in Hloop. by rewrite Hloop.
  - cbn [app] in *. by rewrite Hloop.
Qed.

Lemma decode_text_drops_remainder_witness :
  decode_loop (lit "aaabbc") [(lit "a", lit "0"); (lit "b", lit "10"); (lit "c", lit "11")]
              (lit "0" ++ lit "1")
  = ((decode_loop (lit "aaabbc")
        [(lit "a", lit "0"); (lit "b", lit "10"); (lit "c", lit "11")] (lit "0")).1,
     lit "1")
  ∧ decode_text (lit "aaabbc") [(lit "a", lit "0"); (lit "b", lit "10"); (lit "c", lit "11")]
                (lit "0" ++ lit "1")
    = decode_text (lit "aaabbc") [(lit "a", lit "0"); (lit "b", lit "10"); (lit "c", lit "11")]
                  (lit "0").
Proof.
  apply (decode_text_drops_remainder (lit "aaabbc")
           [(lit "a", lit "0"); (lit "b", lit "10"); (lit "c", lit "11")]
           (lit "0") (lit "1")).
  - reflexivity.
  - intros p Hp [k Hk]. destruct p as [|x [|y p]]; [done| |done].
    injection Hk as <-. reflexivity.
Defined.

(** * Further properties *)

(** ** The frequency table *)

Section counting.
Context {K : Type} `{EqDecision K}.
Implicit Types (k : K) (d : dict K Z) (xs : list K).

Lemma filter_eq_absent k xs : k ∉ xs → filter (λ x, x = k) xs = [].
Proof.
  induction xs as [|x xs IH]; [done|].
  intros [Hne Hin]%not_elem_of_cons. rewrite filter_cons.
  rewrite decide_False by done. by apply IH.
Qed.

Lemma count_fold_get k xs d :
  dict_get k (fold_left count_step xs d)
  = if decide (k ∈ xs)
    then Some (default 0 (dict_get k d) + len (filter (λ x, x = k) xs))
    else dict_get k d.
Proof.
  revert d. induction xs as [|x xs IH]; intros d; [done|].
  cbn [fold_left]. rewrite IH. unfold count_step.
  rewrite filter_cons. unfold len.
  destruct (decide (x = k)) as [->|Hne].
  - rewrite dict_get_set_eq. cbn [default length].
    rewrite (decide_True (P := k ∈ k :: xs)) by apply list_elem_of_here.
    case_decide as Hin.
    + f_equal. unfold id. lia.
    + f_equal. by rewrite filter_eq_absent.
  - rewrite dict_get_set_ne by done.
    destruct (decide (k ∈ xs)) as [Hin|Hin].
    + rewrite decide_True; [done|]. by apply list_elem_of_further.
    + rewrite decide_False; [done|]. rewrite elem_of_cons. naive_solver.
Qed.

Lemma count_fold_NoDup xs d :
  NoDup (dict_keys d) → NoDup (dict_keys (fold_left count_step xs d)).
Proof.
  revert d. induction xs as [|x xs IH]; intros d Hd; [done|].
  apply IH. by apply dict_set_NoDup.
Qed.

Lemma Counter_get k xs :
  dict_get k (Counter xs)
  = if decide (k ∈ xs) then Some (len (filter (λ x, x = k) xs)) else None.
Proof. unfold Counter. rewrite count_fold_get. by case_decide. Qed.

Lemma Counter_NoDup xs : NoDup (dict_keys (Counter xs)).
Proof. apply count_fold_NoDup, NoDup_nil_2. Qed.

End counting.

Lemma pairs_of_length t : len (pairs_of t) = (len t + 1) / 2.
Proof.
  induction t as [|a|a b t IH] using pair_ind; [done..|].
  cbn [pairs_of]. unfold len in *. cbn [length].
  rewrite !Nat2Z.inj_succ, IH.
  replace (Z.succ (Z.succ (Z.of_nat (length t))) + 1)
    with (Z.of_nat (length t) + 1 + 1 * 2) by lia.
  rewrite Z.div_add by lia. lia.
Qed.

Lemma pairs_of_concat t :
  concat (pairs_of t) = t ++ (if bool_decide (len t `mod` 2 = 1) then [space] else []).
Proof.
  induction t as [|a|a b t IH] using pair_ind; [done..|].
  cbn [pairs_of concat app]. rewrite IH. do 3 f_equal.
  replace (len (a :: b :: t)) with (len t + 1 * 2) by (unfold len; simpl; lia).
  by rewrite Z.mod_add.
Qed.

(** X1: the frequency table counts occurrences.  A symbol of the text is a
    key, once, and its value is the number of times it occurs among the
    symbols (so at least 1); anything else is not a key. *)
Theorem calculate_frequencies_counts (text : str) (pairs : bool) (s : str) :
  dict_get s (calculate_frequencies text pairs)
  = (if decide (s ∈ symbols text pairs)
     then Some (len (filter (λ x, x = s) (symbols text pairs)))
     else None)
  ∧ (s ∈ symbols text pairs → 1 ≤ len (filter (λ x, x = s) (symbols text pairs)))
  ∧ NoDup (dict_keys (calculate_frequencies text pairs)).
Proof.
  rewrite calculate_frequencies_symbols. split; [apply Counter_get|].
  split; [|apply Counter_NoDup].
  intros Hin. unfold len.
  assert (s ∈ filter (λ x, x = s) (symbols text pairs)) as Hf
    by (by apply list_elem_of_filter).
  destruct (filter _ _); [by apply elem_of_nil in Hf|]. simpl. lia.
Qed.

(** X2: the counts add up to the number of symbols: the length of the text
    in single mode, half the length rounded up in pair mode. *)
Theorem calculate_frequencies_total (text : str) (pairs : bool) :
  py_sum_int (dict_values (calculate_frequencies text pairs))
  = if pairs then (len text + 1) / 2 else len text.
Proof.
  rewrite calculate_frequencies_symbols, Counter_sum. unfold symbols.
  destruct pairs; [apply pairs_of_length|].
  unfold len. by rewrite length_fmap.
Qed.

(** X3: the symbols counted spell the text.  In single mode every key is
    one character; in pair mode every key is two characters and the symbols
    in order concatenate to the text, followed by one space when the length
    is odd. *)
Theorem calculate_frequencies_partition (text : str) :
  (∀ s, s ∈ dict_keys (calculate_frequencies text false) ↔ ∃ c, s = [c] ∧ c ∈ text)
  ∧ (∀ s, s ∈ dict_keys (calculate_frequencies text true) → length s = 2%nat)
  ∧ (∀ s, s ∈ dict_keys (calculate_frequencies text true) ↔ s ∈ pairs_list text)
  ∧ concat (pairs_list text)
    = text ++ (if bool_decide (len text `mod` 2 = 1) then [space] else []).
Proof.
  split_and!.
  - intros s. unfold calculate_frequencies. rewrite Counter_keys.
    apply list_elem_of_fmap.
  - intros s. rewrite calculate_frequencies_symbols, Counter_keys.
    apply (symbols_length text true).
  - intros s. unfold calculate_frequencies. apply Counter_keys.
  - rewrite pairs_list_pairs_of. apply pairs_of_concat.
Qed.

(** ** The probability table *)

Lemma omap_list_Raise {A B} (f : A → outcome B) (e : exn) l :
  l ≠ [] → (∀ x, x ∈ l → f x = Raise e) → omap_list f l = Raise e.
Proof.
  destruct l as [|x l]; [done|]. intros _ Hf. simpl.
  by rewrite Hf by apply list_elem_of_here.
Qed.

Lemma dict_get_fmap_values {K V W} `{EqDecision K} (g : V → W) (k : K)
    (d : dict K V) :
  dict_get k ((λ kv : K * V, (kv.1, g kv.2)) <$> d) = g <$> dict_get k d.
Proof.
  induction d as [|[k' v] d IH]; [done|]. rewrite fmap_cons. cbn [dict_get fst snd].
  by case_decide.
Qed.

Lemma calculate_probabilities_total_nonzero `{Arith F} (frequencies : dict str Z) :
  frequencies = [] ∨ py_sum_int (dict_values frequencies) ≠ 0 →
  calculate_probabilities (F:=F) frequencies
  = Return ((λ cf : list N * Z,
               (cf.1, fdiv cf.2 (py_sum_int (dict_values frequencies))))
              <$> frequencies).
Proof.
  intros [->|Htotal]; [done|]. unfold calculate_probabilities. cbn zeta.
  apply omap_list_Return. intros [c fr] _. unfold py_truediv.
  by rewrite decide_False.
Qed.

Lemma calculate_frequencies_total_nonzero (text : str) (pairs : bool) :
  calculate_frequencies text pairs = []
  ∨ py_sum_int (dict_values (calculate_frequencies text pairs)) ≠ 0.
Proof.
  destruct text as [|c text]; [left; by destruct pairs|]. right.
  rewrite calculate_frequencies_symbols, Counter_sum.
  pose proof (symbols_nonempty (c :: text) pairs ltac:(done)).
  unfold len. destruct (symbols _ _); [done|]. simpl. lia.
Qed.

(** X4: [calculate_probabilities] raises ZeroDivisionError exactly on a
    non-empty table whose counts sum to zero; on every other table it
    returns the table of quotients count / total, same keys, same order.
    On the table that [calculate_frequencies] builds from any text, empty
    or not, in either mode, it returns. *)
Theorem calculate_probabilities_outcome `{Arith F} :
  (∀ frequencies : dict str Z,
     let total := py_sum_int (dict_values frequencies) in
     (frequencies ≠ [] ∧ total = 0 →
      calculate_probabilities (F:=F) frequencies = Raise ZeroDivisionError)
     ∧ (frequencies = [] ∨ total ≠ 0 →
        calculate_probabilities (F:=F) frequencies
        = Return ((λ cf : list N * Z, (cf.1, fdiv cf.2 total)) <$> frequencies)))
  ∧ (∀ text pairs,
       ∃ p : dict str F,
         calculate_probabilities (calculate_frequencies text pairs) = Return p
         ∧ dict_keys p = dict_keys (calculate_frequencies text pairs)).
Proof.
  split.
  - intros frequencies total. split.
    + intros [Hne Htotal]. unfold calculate_probabilities. cbn zeta.
      fold total. rewrite Htotal.
      apply omap_list_Raise; [done|]. by intros [c fr] _.
    + apply calculate_probabilities_total_nonzero.
  - intros text pairs. eexists. split.
    + apply calculate_probabilities_total_nonzero,
        calculate_frequencies_total_nonzero.
    + unfold dict_keys. by rewrite <- list_fmap_compose.
Qed.

(** In exact arithmetic. *)

Lemma py_sum_cons_Qc (x : Qc) l : py_sum (x :: l) = (x + py_sum l)%Qc.
Proof.
  unfold py_sum at 1. cbn [fold_left fadd fzero Qc_arith].
  rewrite py_sum_from. ring.
Qed.

Lemma py_sum_quotients (T : Z) (fr : dict str Z) :
  py_sum (dict_values ((λ cf : list N * Z, (cf.1, fdiv cf.2 T : Qc)) <$> fr))
  = (Qc_of_Z (py_sum_int (dict_values fr)) / Qc_of_Z T)%Qc.
Proof.
  unfold dict_values. induction fr as [|[c f] fr IH].
  - cbn. unfold Qcdiv. rewrite Z2Qc_inj_0. ring.
  - rewrite !fmap_cons, py_sum_cons_Qc, py_sum_int_cons, IH.
    cbn [snd fdiv Qc_arith]. rewrite Z2Qc_inj_add. unfold Qcdiv. ring.
Qed.

(** X5: in exact arithmetic the probabilities of a non-empty text are a
    distribution: every one lies in (0, 1] and they sum to 1. *)
Theorem probabilities_distribution (text : str) (pairs : bool) :
  text ≠ [] →
  ∃ p : dict str Qc,
    calculate_probabilities (calculate_frequencies text pairs) = Return p
    ∧ py_sum (dict_values p) = 1%Qc
    ∧ (∀ s q, dict_get s p = Some q → (0 < q ∧ q ≤ 1)%Qc).
Proof.
  intros Ht. eexists. split.
  { apply calculate_probabilities_total_nonzero,
      calculate_frequencies_total_nonzero. }
  set (fr := calculate_frequencies text pairs).
  set (T := py_sum_int (dict_values fr)).
  assert (HT : T = len (symbols text pairs)).
  { unfold T, fr. by rewrite calculate_frequencies_symbols, Counter_sum. }
  assert (HTpos : 0 < T).
  { rewrite HT. pose proof (symbols_nonempty text pairs Ht).
    unfold len. destruct (symbols _ _); [done|]. simpl. lia. }
  assert (HTq : (0 < Qc_of_Z T)%Qc).
  { rewrite <- Z2Qc_inj_0. by apply (proj1 (Z2Qc_inj_lt 0 T)). }
  split.
  - rewrite py_sum_quotients. fold T. unfold Qcdiv.
    apply Qcmult_inv_r. intros Heq. rewrite Heq in HTq.
    by apply Qclt_not_eq in HTq.
  - intros s q. fold fr. fold T.
    rewrite (dict_get_fmap_values (λ f : Z, fdiv f T : Qc) s fr).
    destruct (dict_get s fr) as [f|] eqn:Hf; [|done]. intros [= <-].
    unfold fr in Hf. rewrite calculate_frequencies_symbols, Counter_get in Hf.
    case_decide as Hin; [|done]. injection Hf as <-.
    set (n := len (filter (λ x, x = s) (symbols text pairs))).
    assert (1 ≤ n ≤ T) as [Hn1 HnT].
    { unfold n, len. rewrite HT. unfold len.
      pose proof (length_filter (λ x, x = s) (symbols text pairs)).
      assert (s ∈ filter (λ x, x = s) (symbols text pairs)) as Hf
        by (by apply list_elem_of_filter).
      destruct (filter _ _); [by apply elem_of_nil in Hf|]. simpl in *. lia. }
    cbn [fdiv Qc_arith]. unfold Qcdiv. split.
    + apply Qcmult_pos_pos; [|by apply Qcinv_pos].
      rewrite <- Z2Qc_inj_0. apply (proj1 (Z2Qc_inj_lt 0 n)). lia.
    + rewrite <- (Qcmult_inv_r (Qc_of_Z T)).
      * apply Qcmult_le_mono_nonneg_r; [by apply Qclt_le_weak, Qcinv_pos|].
        by apply (proj1 (Z2Qc_inj_le n T)).
      * intros Heq. rewrite Heq in HTq. by apply Qclt_not_eq in HTq.
Qed.

Lemma probabilities_distribution_witness :
  ∃ p : dict str Qc,
    calculate_probabilities (calculate_frequencies (lit "aaabbc") false) = Return p
    ∧ py_sum (dict_values p) = 1%Qc
    ∧ (∀ s q, dict_get s p = Some q → (0 < q ∧ q ≤ 1)%Qc).
Proof. apply (probabilities_distribution (lit "aaabbc") false). done. Defined.

(** ** The code table, further *)

Section dict_append.
Context {K V : Type} `{EqDecision K}.
Implicit Types (k : K) (v : V) (d l : dict K V).

Lemma dict_set_absent k v d : k ∉ dict_keys d → dict_set k v d = d ++ [(k, v)].
Proof.
  unfold dict_keys. induction d as [|[k' v'] d IH]; [done|].
  rewrite fmap_cons. intros [Hne Hin]%not_elem_of_cons. cbn [dict_set fst].
  rewrite decide_False by done. by rewrite IH.
Qed.

(** Assignments to distinct fresh keys append in order. *)
Lemma dict_update_fresh l d :
  NoDup (dict_keys l) → (∀ k, k ∈ dict_keys l → k ∉ dict_keys d) →
  dict_update l d = d ++ l.
Proof.
  unfold dict_keys. revert d. induction l as [|[k v] l IH]; intros d Hnd Hfresh.
  - by rewrite app_nil_r.
  - rewrite fmap_cons in Hnd. apply NoDup_cons in Hnd as [Hk Hnd].
    rewrite dict_update_cons, dict_set_absent
      by (apply Hfresh; rewrite fmap_cons; apply list_elem_of_here).
    rewrite IH; [by rewrite <- app_assoc|done|].
    intros k' Hk'. rewrite fmap_app, elem_of_app. intros [Hd|Hd].
    + revert Hd. apply Hfresh. rewrite fmap_cons. by apply list_elem_of_further.
    + apply list_elem_of_singleton in Hd. simpl in Hd. by subst k'.
Qed.

Lemma dict_update_keys_prefix l d :
  dict_keys d `prefix_of` dict_keys (dict_update l d).
Proof.
  revert d. induction l as [|[k v] l IH]; intros d; [done|].
  rewrite dict_update_cons. etrans; [|apply IH].
  rewrite dict_keys_set. case_decide; [done|]. by apply prefix_app_r.
Qed.

End dict_append.

Section coder_more.
Context {F : Type} {arith : Arith F}.
Implicit Types (items : list (item F)) (probabilities : dict str F).

Lemma assignments_length fuel items code_prefix s c :
  (length items < fuel)%nat →
  (s, c) ∈ assignments fuel items code_prefix →
  (1 ≤ length c ≤ max 1 (length code_prefix + length items - 1))%nat.
Proof.
  revert items code_prefix.
  induction fuel as [|fuel IH]; intros items code_prefix Hlen; [lia|].
  cbn [assignments].
  destruct (decide (length items ≤ 1)%nat) as [Hle|Hgt].
  - destruct items as [|it items]; [by intros ?%elem_of_nil|].
    intros [= -> ->]%list_elem_of_singleton.
    destruct (decide (code_prefix = [])) as [->|Hne]; [simpl; lia|].
    destruct code_prefix; [done|]. simpl in *. lia.
  - pose proof (left_group_length items ltac:(lia)).
    pose proof (right_group_length items ltac:(lia)).
    pose proof (f_equal length (left_right_group items)) as Hsum.
    rewrite length_app in Hsum.
    intros [Hin|Hin]%elem_of_app; apply IH in Hin; try lia;
      rewrite length_app in Hin; simpl in Hin; lia.
Qed.

Lemma assignments_complete fuel items code_prefix w :
  (length items < fuel)%nat → items ≠ [] →
  code_prefix ≠ [] ∨ (2 ≤ length items)%nat →
  Forall is_bit w → code_prefix `prefix_of` w →
  ∃ s c, (s, c) ∈ assignments fuel items code_prefix
         ∧ (c `prefix_of` w ∨ w `prefix_of` c).
Proof.
  revert items code_prefix.
  induction fuel as [|fuel IH]; intros items code_prefix Hlen Hne Hp Hw Hpre;
    [lia|].
  cbn [assignments].
  destruct (decide (length items ≤ 1)%nat) as [Hle|Hgt].
  - destruct items as [|it items]; [done|].
    destruct Hp as [Hp|Hp]; [|simpl in *; lia].
    rewrite decide_False by done.
    exists it.1, code_prefix. split; [apply list_elem_of_here|by left].
  - pose proof (left_group_length items ltac:(lia)) as Hl.
    pose proof (right_group_length items ltac:(lia)) as Hr.
    destruct Hpre as [w' ->]. destruct w' as [|b w'].
    + (* the string stops at the node: any code below it extends it *)
      destruct (left_group items) as [|it l] eqn:Hlg; [simpl in Hl; lia|].
      assert (it.1 ∈ dict_keys (assignments fuel (it :: l) (code_prefix ++ [bit0])))
        as Hkey.
      { rewrite assignments_keys by (simpl in *; lia). apply list_elem_of_here. }
      apply list_elem_of_fmap in Hkey as ([s c] & _ & Hin).
      exists s, c. split; [apply elem_of_app; by left|]. right.
      apply assignments_codes in Hin as (Hpc & _); [|simpl in *; lia].
      rewrite app_nil_r. by eapply prefix_app_l.
    + assert (is_bit b) as Hb.
      { apply Forall_app in Hw as [_ Hb]. by apply Forall_cons in Hb as [Hb _]. }
      destruct Hb as [-> | ->].
      * destruct (IH (left_group items) (code_prefix ++ [bit0]))
          as (s & c & Hin & Hc); [lia| |left; by destruct code_prefix|done| |].
        -- intros Hnil. rewrite Hnil in Hl. simpl in Hl. lia.
        -- exists w'. by rewrite <- app_assoc.
        -- exists s, c. split; [apply elem_of_app; by left|done].
      * destruct (IH (right_group items) (code_prefix ++ [bit1]))
          as (s & c & Hin & Hc); [lia| |left; by destruct code_prefix|done| |].
        -- intros Hnil. rewrite Hnil in Hr. simpl in Hr. lia.
        -- exists w'. by rewrite <- app_assoc.
        -- exists s, c. split; [apply elem_of_app; by right|done].
Qed.

(** With distinct symbols the code table is the list of assignments. *)
Lemma shannon_fano_coding_fresh probabilities :
  NoDup (dict_keys probabilities) →
  shannon_fano_coding probabilities []
  = Return (assignments (S (length (sorted_desc probabilities)))
                        (sorted_desc probabilities) []).
Proof.
  intros Hnd. rewrite shannon_fano_coding_assignments. f_equal.
  rewrite dict_update_fresh; [done| |].
  - rewrite assignments_keys by lia. unfold dict_keys.
    by rewrite sorted_desc_perm.
  - intros k _. apply not_elem_of_nil.
Qed.

End coder_more.

Section code_table_more.
Context {F : Type} {arith : Arith F}.
Implicit Types (probabilities : dict str F).

Lemma shannon_fano_coding_complete_aux probabilities :
  NoDup (dict_keys probabilities) → (2 ≤ length probabilities)%nat →
  ∃ codes,
    shannon_fano_coding probabilities [] = Return codes ∧ complete codes.
Proof.
  intros Hnd Hlen. eexists. split; [by apply shannon_fano_coding_fresh|].
  intros w Hw.
  destruct (assignments_complete (S (length (sorted_desc probabilities)))
              (sorted_desc probabilities) [] w) as (s & c & Hin & Hc).
  - lia.
  - intros Hnil. apply (f_equal length) in Hnil.
    rewrite sorted_desc_length in Hnil. simpl in Hnil. lia.
  - right. by rewrite sorted_desc_length.
  - done.
  - apply prefix_nil.
  - exists s, c. split; [|done]. apply dict_get_elem_NoDup; [|done].
    rewrite assignments_keys by lia. unfold dict_keys.
    by rewrite sorted_desc_perm.
Qed.

(** X6: every code is at least one bit long and at most as long as the
    number of symbols less one (one bit for a one-symbol table): the
    recursion is at most that deep. *)
Theorem code_length_bound probabilities :
  ∃ codes,
    shannon_fano_coding probabilities [] = Return codes
    ∧ (∀ s c, dict_get s codes = Some c →
              (1 ≤ length c ≤ max 1 (length probabilities - 1))%nat).
Proof.
  eexists. split; [apply shannon_fano_coding_assignments|].
  intros s c [Hin|?]%dict_update_get_Some; [|done].
  apply assignments_length in Hin; [|lia].
  rewrite sorted_desc_length in Hin. simpl in Hin. lia.
Qed.

(** X7: [shannon_fano_coding] never clears [self.codes].  On an encoder
    that already holds codes, the result is the old table with the entries
    of the fresh table written over it: symbols outside the probability table
    keep their old code, and the old keys keep their places at the front. *)
Theorem shannon_fano_coding_keeps_old_entries probabilities
    (codes : dict str str) :
  ∃ fresh codes',
    shannon_fano_coding probabilities [] = Return fresh
    ∧ shannon_fano_coding probabilities codes = Return codes'
    ∧ (∀ s, dict_get s codes'
            = match dict_get s fresh with
              | Some c => Some c
              | None => dict_get s codes
              end)
    ∧ (∀ s, s ∉ dict_keys probabilities → dict_get s codes' = dict_get s codes)
    ∧ dict_keys codes `prefix_of` dict_keys codes'.
Proof.
  do 2 eexists. split; [apply shannon_fano_coding_assignments|].
  split; [apply shannon_fano_coding_assignments|].
  set (asg := assignments _ _ _).
  assert (Hget : ∀ s, dict_get s (dict_update asg codes)
                      = match dict_get s (dict_update asg []) with
                        | Some c => Some c
                        | None => dict_get s codes
                        end).
  { intros s. rewrite !dict_get_update.
    by destruct (dict_get s (reverse asg)). }
  split; [done|]. split; [|apply dict_update_keys_prefix].
  intros s Hs. rewrite Hget.
  destruct (dict_get s (dict_update asg [])) as [c|] eqn:Hc; [|done].
  exfalso. apply Hs.
  assert (s ∈ dict_keys asg ∨ s ∈ dict_keys (@nil (list N * list N))) as [Hk|Hk].
  { apply dict_update_keys, dict_get_is_Some. by rewrite Hc. }
  - unfold asg in Hk. rewrite assignments_keys in Hk by lia.
    unfold dict_keys in *. by rewrite sorted_desc_perm in Hk.
  - by apply elem_of_nil in Hk.
Qed.

(** X8: when the symbols of the probability table are distinct, as the keys
    of a dict are, the code table lists them in the order of the sort: by
    descending probability, ties in insertion order. *)
Theorem code_table_order probabilities :
  NoDup (dict_keys probabilities) →
  ∃ codes,
    shannon_fano_coding probabilities [] = Return codes
    ∧ dict_keys codes = dict_keys (sorted_desc probabilities).
Proof.
  intros Hnd. eexists. split; [by apply shannon_fano_coding_fresh|].
  apply assignments_keys. lia.
Qed.

(** X9: with at least two symbols, all distinct, the code is complete:
    every string of bits either begins with a code or is the beginning of
    one, so no string of bits leads the decoder outside the code tree. *)
Theorem shannon_fano_coding_code_complete probabilities :
  NoDup (dict_keys probabilities) → (2 ≤ length probabilities)%nat →
  ∃ codes,
    shannon_fano_coding probabilities [] = Return codes ∧ complete codes.
Proof. apply shannon_fano_coding_complete_aux. Qed.

End code_table_more.

Lemma code_table_order_witness :
  dict_keys (sorted_desc
               [(lit "c", Q2Qc (1 # 6)); (lit "a", Q2Qc (1 # 2)); (lit "b", Q2Qc (1 # 3))])
  = [lit "a"; lit "b"; lit "c"]
  ∧ ∃ codes,
      shannon_fano_coding
        [(lit "c", Q2Qc (1 # 6)); (lit "a", Q2Qc (1 # 2)); (lit "b", Q2Qc (1 # 3))] []
      = Return codes
      ∧ dict_keys codes
        = dict_keys (sorted_desc
                       [(lit "c", Q2Qc (1 # 6)); (lit "a", Q2Qc (1 # 2));
                        (lit "b", Q2Qc (1 # 3))]).
Proof.
  split; [by vm_compute|].
  apply (code_table_order
           [(lit "c", Q2Qc (1 # 6)); (lit "a", Q2Qc (1 # 2)); (lit "b", Q2Qc (1 # 3))]).
  apply (bool_decide_unpack _). by vm_compute.
Defined.

Lemma shannon_fano_coding_code_complete_witness :
  ∃ codes,
    shannon_fano_coding
      [(lit "a", Q2Qc (1 # 2)); (lit "b", Q2Qc (1 # 3)); (lit "c", Q2Qc (1 # 6))] []
    = Return codes
    ∧ complete codes.
Proof.
  apply (shannon_fano_coding_code_complete
           [(lit "a", Q2Qc (1 # 2)); (lit "b", Q2Qc (1 # 3)); (lit "c", Q2Qc (1 # 6))]).
  - apply (bool_decide_unpack _). by vm_compute.
  - simpl. lia.
Defined.

(** ** The codec, further *)

Lemma fold_emit_all codes syms e :
  fold_left (emit codes) syms e = e ++ concat (code_of codes <$> syms).
Proof.
  revert e. induction syms as [|s syms IH]; intros e; simpl.
  - by rewrite app_nil_r.
  - rewrite IH. unfold emit, code_of.
    destruct (dict_get s codes); simpl; [by rewrite app_assoc|done].
Qed.

Lemma encode_text_concat_aux text codes :
  encode_text text codes
  = concat (code_of codes <$> symbols text (is_pairs codes)).
Proof.
  destruct codes as [|kv codes].
  - change (encode_text text []) with (@nil N).
    generalize (symbols text (is_pairs [])). intros l.
    induction l as [|s l IH]; [done|]. by rewrite fmap_cons, concat_cons, <- IH.
  - rewrite encode_text_symbols by done. by rewrite fold_emit_all.
Qed.

(** X10: [encode_text] is the concatenation, in text order, of the codes
    of the symbols of the text, cut as characters or as pairs according to
    the length of the first key of the code table; a symbol that has no
    code contributes nothing, so in single mode the text and the text
    without its unknown characters encode alike. *)
Theorem encode_text_concat (text : str) (codes : dict str str) :
  encode_text text codes
  = concat (code_of codes <$> symbols text (is_pairs codes))
  ∧ (is_pairs codes = false →
     encode_text text codes
     = encode_text (filter (λ c, is_Some (dict_get [c] codes)) text) codes).
Proof.
  split; [apply encode_text_concat_aux|].
  intros Hmode. rewrite !encode_text_concat_aux, Hmode. unfold symbols.
  induction text as [|c text IH]; [done|].
  rewrite filter_cons, !fmap_cons, concat_cons, IH.
  destruct (decide (is_Some (dict_get [c] codes))) as [Hc|Hc].
  - by rewrite !fmap_cons, concat_cons.
  - unfold code_of at 1. apply eq_None_not_Some in Hc. by rewrite Hc.
Qed.

Lemma encode_text_concat_witness :
  encode_text (lit "axbxc") [(lit "a", lit "0"); (lit "b", lit "10"); (lit "c", lit "11")]
  = lit "01011"
  ∧ encode_text (lit "axbxc") [(lit "a", lit "0"); (lit "b", lit "10"); (lit "c", lit "11")]
    = encode_text
        (filter (λ c, is_Some (dict_get [c]
                   [(lit "a", lit "0"); (lit "b", lit "10"); (lit "c", lit "11")]))
                (lit "axbxc"))
        [(lit "a", lit "0"); (lit "b", lit "10"); (lit "c", lit "11")].
Proof.
  split; [reflexivity|].
  apply (encode_text_concat (lit "axbxc")
           [(lit "a", lit "0"); (lit "b", lit "10"); (lit "c", lit "11")]).
  reflexivity.
Defined.

Section pipeline_more.
Context {F : Type} {arith : Arith F}.

(** The pipeline returns on every text; [build_spec] says more when the
    text is not empty. *)
Lemma build_total (t : str) (pairs : bool) :
  ∃ e : encoder F,
    build t pairs = Return e
    ∧ text e = t
    ∧ frequencies e = calculate_frequencies t pairs
    ∧ (∀ s, s ∈ dict_keys (codes e) ↔ s ∈ symbols t pairs)
    ∧ NoDup (dict_keys (codes e))
    ∧ prefix_free (codes e)
    ∧ (∀ s c, dict_get s (codes e) = Some c → c ≠ [] ∧ Forall is_bit c).
Proof.
  destruct t as [|c t]; [|by apply build_spec].
  exists {| text := []; frequencies := []; probabilities := []; codes := [] |}.
  split; [by destruct pairs|]. split; [done|]. split; [by destruct pairs|].
  split; [by destruct pairs|]. split; [apply NoDup_nil_2|]. by split.
Qed.

Lemma build_is_pairs (t : str) (pairs : bool) (e : encoder F) :
  build t pairs = Return e →
  symbols t (is_pairs (codes e)) = symbols t pairs.
Proof.
  intros He. destruct (build_total t pairs) as (e' & He' & _ & _ & Hkeys & _).
  rewrite He in He'. injection He' as <-.
  destruct t as [|c t]; [by destruct (is_pairs _), pairs|].
  rewrite (is_pairs_symbols (c :: t) pairs); [done| |apply Hkeys].
  intros Hnil. pose proof (symbols_nonempty (c :: t) pairs ltac:(done)) as Hs.
  destruct (symbols (c :: t) pairs) as [|s l]; [done|].
  assert (s ∈ dict_keys (codes e)) as Hin by apply Hkeys, list_elem_of_here.
  rewrite Hnil in Hin. by apply elem_of_nil in Hin.
Qed.

End pipeline_more.

Lemma prefix_snoc_cases {A} (c r : list A) (b : A) :
  c `prefix_of` r ++ [b] → c = r ++ [b] ∨ c `prefix_of` r.
Proof.
  intros [k Hk]. destruct k as [|x k _] using rev_ind.
  - left. by rewrite app_nil_r in Hk.
  - right. exists k. rewrite app_assoc in Hk.
    by apply app_inj_tail in Hk as [? _].
Qed.

Section never_stuck.
Context (text : str) (codes : dict str str).
Hypothesis Hnd : NoDup (dict_keys codes).
Hypothesis Hpf : prefix_free codes.
Hypothesis Hne : ∀ s c, dict_get s codes = Some c → c ≠ [].
Hypothesis Hcomplete : complete codes.

Lemma inside_code_nil : inside_code codes [].
Proof.
  split; [done|]. destruct (Hcomplete [] ltac:(done)) as (s & c & Hc & _).
  exists s, c. split; [done|]. split; [apply prefix_nil|].
  intros Heq. by apply (Hne s c).
Qed.

Lemma decode_step_inside decoded r b :
  inside_code codes r → is_bit b →
  inside_code codes (decode_step text (reverse_codes codes) (decoded, r) b).2.
Proof.
  intros [Hr (s' & c' & Hc' & Hpre' & Hneq')] Hb.
  assert (Hw : Forall is_bit (r ++ [b])).
  { apply Forall_app. split; [done|]. by apply Forall_singleton. }
  rewrite decode_step_emitted.
  destruct (Hcomplete (r ++ [b]) Hw) as (s & c & Hc & [Hcw|Hwc]).
  - apply prefix_snoc_cases in Hcw as [->|Hcr].
    + rewrite (reverse_codes_code codes Hnd Hpf s (r ++ [b]) Hc).
      apply inside_code_nil.
    + exfalso. destruct (Hpf s s' c c' Hc Hc') as [Hpp _]. apply Hpp.
      split; [by etrans|]. intros ->.
      apply Hneq'. by apply (anti_symm prefix).
  - destruct (decide (r ++ [b] = c)) as [<-|Hneq].
    + rewrite (reverse_codes_code codes Hnd Hpf s (r ++ [b]) Hc).
      apply inside_code_nil.
    + rewrite (reverse_codes_proper_prefix codes Hnd Hpf s c (r ++ [b])) by done.
      split; [done|]. by exists s, c.
Qed.

Lemma decode_fold_inside bits decoded r :
  Forall is_bit bits → inside_code codes r →
  inside_code codes (fold_left (decode_step text (reverse_codes codes)) bits (decoded, r)).2.
Proof.
  revert decoded r. induction bits as [|b bits IH]; intros decoded r Hbits Hr;
    [done|].
  apply Forall_cons in Hbits as [Hb Hbits]. cbn [fold_left].
  pose proof (decode_step_inside decoded r b Hr Hb) as Hstep.
  destruct (decode_step _ _ _ _) as [decoded' r']. by apply IH.
Qed.

End never_stuck.

Section codec_more.
Context {F : Type} {arith : Arith F}.

Lemma build_complete (t : str) (pairs : bool) :
  (2 ≤ length (calculate_frequencies t pairs))%nat →
  ∃ e : encoder F, build t pairs = Return e ∧ complete (codes e).
Proof.
  intros Hlen. unfold build.
  rewrite (calculate_probabilities_total_nonzero (F:=F))
    by apply calculate_frequencies_total_nonzero.
  cbn [mbind outcome_bind].
  set (p := _ <$> calculate_frequencies t pairs).
  destruct (shannon_fano_coding_complete_aux p) as (c & Hc & Hcomplete).
  - unfold p, dict_keys. rewrite <- list_fmap_compose.
    rewrite calculate_frequencies_symbols. apply Counter_NoDup.
  - unfold p. by rewrite length_fmap.
  - rewrite Hc. cbn [mbind outcome_bind]. eexists. split; [done|]. done.
Qed.

(** X11: with at least two distinct symbols in the text, no string of bits
    gets the decoder stuck: whatever bits are fed to [decode_text], the
    buffer left at the end is the beginning of some code, short of its end
    (empty when the bits are whole codes).  So the only corruption of a bit
    string that the table cannot decode is a truncated last code. *)
Theorem decode_never_stuck (t : str) (pairs : bool) (bits : str) :
  (2 ≤ length (calculate_frequencies t pairs))%nat →
  Forall is_bit bits →
  ∃ e : encoder F,
    build t pairs = Return e
    ∧ ∃ s c, dict_get s (codes e) = Some c
             ∧ (decode_loop t (codes e) bits).2 `prefix_of` c
             ∧ (decode_loop t (codes e) bits).2 ≠ c.
Proof.
  intros Hlen Hbits.
  destruct (build_complete t pairs Hlen) as (e & He & Hcomplete).
  destruct (build_total (F:=F) t pairs) as (e' & He' & _ & _ & _ & Hnd & Hpf & Hne).
  rewrite He in He'. injection He' as <-.
  exists e. split; [done|].
  assert (Hne' : ∀ s c, dict_get s (codes e) = Some c → c ≠ []).
  { intros s c Hs. by apply Hne in Hs as [? _]. }
  destruct (decode_fold_inside t (codes e) Hnd Hpf Hne' Hcomplete bits [] [])
    as [_ Hin]; [done|by apply inside_code_nil|].
  exact Hin.
Qed.

(** X12: in single mode the table built from one text decodes every text
    over the same characters, whatever text the decoding encoder holds:
    [decode_text] after [encode_text] gives the message back. *)
Theorem decode_any_message (t msg t' : str) :
  t ≠ [] → (∀ c, c ∈ msg → c ∈ t) →
  ∃ e : encoder F,
    build t false = Return e
    ∧ decode_text t' (codes e) (encode_text msg (codes e)) = msg.
Proof.
  intros Ht Hmsg.
  destruct (build_spec (F:=F) t false Ht)
    as (e & He & _ & _ & Hkeys & Hnd & Hpf & Hne).
  exists e. split; [done|].
  assert (Hne' : ∀ s c, dict_get s (codes e) = Some c → c ≠ []).
  { intros s c Hs. by apply Hne in Hs as [? _]. }
  assert (Hcodes : codes e ≠ []).
  { intros Hnil. destruct t as [|c t]; [done|].
    assert ([c] ∈ dict_keys (codes e)) as Hin by (apply Hkeys, list_elem_of_here).
    rewrite Hnil in Hin. by apply elem_of_nil in Hin. }
  assert (Hmode : is_pairs (codes e) = false).
  { apply (is_pairs_symbols t false); [done|apply Hkeys]. }
  rewrite encode_text_concat_aux, Hmode. unfold symbols.
  assert (Hall : ∀ s, s ∈ (λ c, [c]) <$> msg → is_Some (dict_get s (codes e))).
  { intros s (c & -> & Hc)%list_elem_of_fmap.
    apply dict_get_is_Some, Hkeys. unfold symbols.
    apply list_elem_of_fmap. exists c. split; [done|by apply Hmsg]. }
  assert (Hloop :
    decode_loop t' (codes e) (concat (code_of (codes e) <$> ((λ c, [c]) <$> msg)))
    = (msg, [])).
  { unfold decode_loop. rewrite (decode_symbols t' (codes e) Hnd Hpf Hne') by done.
    by rewrite decoded_singles. }
  unfold decode_text. destruct (codes e) as [|kv l] eqn:Hce; [done|].
  destruct (concat _) as [|b bits] eqn:Henc; [|by rewrite Hloop].
  destruct msg as [|c msg]; [done|]. exfalso.
  rewrite !fmap_cons, concat_cons in Henc. apply app_eq_nil in Henc as [Hs _].
  destruct (Hall [c]) as [code Hcode]; [rewrite fmap_cons; apply list_elem_of_here|].
  unfold code_of in Hs. rewrite Hcode in Hs. by apply Hne' in Hcode.
Qed.

End codec_more.

Lemma decode_never_stuck_witness :
  ∃ e : encoder Qc,
    build (lit "aaabbc") false = Return e
    ∧ ∃ s c, dict_get s (codes e) = Some c
             ∧ (decode_loop (lit "aaabbc") (codes e) (lit "01")).2 `prefix_of` c
             ∧ (decode_loop (lit "aaabbc") (codes e) (lit "01")).2 ≠ c.
Proof.
  apply (decode_never_stuck (F:=Qc) (lit "aaabbc") false (lit "01")).
  - vm_compute. lia.
  - repeat constructor; by vm_compute; auto.
Defined.

Lemma decode_any_message_witness :
  ∃ e : encoder Qc,
    build (lit "aaabbc") false = Return e
    ∧ decode_text (lit "zz") (codes e) (encode_text (lit "cab") (codes e))
      = lit "cab".
Proof.
  apply (decode_any_message (F:=Qc) (lit "aaabbc") (lit "cab") (lit "zz")).
  - done.
  - intros c Hc. apply (bool_decide_unpack _).
    apply list_elem_of_In in Hc. simpl in Hc.
    destruct Hc as [<-|[<-|[<-|[]]]]; by vm_compute.
Defined.

(** ** The length of the encoding *)

Lemma len_concat {A} (ls : list (list A)) :
  len (concat ls) = py_sum_int (len <$> ls).
Proof.
  induction ls as [|l ls IH]; [done|].
  rewrite concat_cons, fmap_cons, py_sum_int_cons, <- IH.
  unfold len. rewrite length_app. lia.
Qed.

Section weighted_count.
Context {K : Type} `{EqDecision K} (g : K → Z).
Implicit Types (k : K) (d : dict K Z) (xs : list K).

Lemma weighted_set k d :
  py_sum_int ((λ kf : K * Z, kf.2 * g kf.1)
                <$> dict_set k (default 0 (dict_get k d) + 1) d)
  = py_sum_int ((λ kf : K * Z, kf.2 * g kf.1) <$> d) + g k.
Proof.
  induction d as [|[k' f] d IH]; cbn [dict_set dict_get].
  - rewrite fmap_cons, py_sum_int_cons. cbn. unfold py_sum_int. simpl. lia.
  - destruct (decide (k = k')) as [->|Hne];
      rewrite !fmap_cons, !py_sum_int_cons; cbn [fst snd default].
    + unfold id. lia.
    + rewrite IH. lia.
Qed.

Lemma weighted_fold xs d :
  py_sum_int ((λ kf : K * Z, kf.2 * g kf.1) <$> fold_left count_step xs d)
  = py_sum_int ((λ kf : K * Z, kf.2 * g kf.1) <$> d) + py_sum_int (g <$> xs).
Proof.
  revert d. induction xs as [|x xs IH]; intros d.
  - change (py_sum_int (g <$> [])) with 0. cbn [fold_left]. lia.
  - cbn [fold_left]. rewrite IH. unfold count_step.
    rewrite weighted_set, fmap_cons, py_sum_int_cons. lia.
Qed.

Lemma Counter_weighted xs :
  py_sum_int ((λ kf : K * Z, kf.2 * g kf.1) <$> Counter xs)
  = py_sum_int (g <$> xs).
Proof.
  unfold Counter. rewrite weighted_fold.
  change (py_sum_int (_ <$> [])) with 0. lia.
Qed.

End weighted_count.

Lemma py_sum_int_ge_len {A} (g : A → Z) (l : list A) :
  (∀ x, x ∈ l → 1 ≤ g x) → len l ≤ py_sum_int (g <$> l).
Proof.
  induction l as [|x l IH]; intros Hg; [done|].
  rewrite fmap_cons, py_sum_int_cons.
  pose proof (Hg x ltac:(apply list_elem_of_here)).
  pose proof (IH ltac:(intros; apply Hg; by apply list_elem_of_further)).
  unfold len in *. simpl length. lia.
Qed.

Lemma encoded_length_aux `{Arith F} (t : str) (pairs : bool) (e : encoder F) :
  build t pairs = Return e →
  len (encoded_of e)
  = py_sum_int ((λ sf : list N * Z, sf.2 * len (code_of (codes e) sf.1))
                  <$> frequencies e)
  ∧ len (symbols t pairs) ≤ len (encoded_of e).
Proof.
  intros He.
  destruct (build_total (F:=F) t pairs)
    as (e' & He' & Htext & Hfreq & Hkeys & _ & _ & Hne).
  rewrite He in He'. injection He' as <-.
  assert (Henc : len (encoded_of e)
                 = py_sum_int ((λ s, len (code_of (codes e) s)) <$> symbols t pairs)).
  { unfold encoded_of. rewrite Htext, encode_text_concat_aux.
    rewrite (build_is_pairs t pairs e He), len_concat.
    by rewrite <- list_fmap_compose. }
  split.
  - rewrite Henc, Hfreq, calculate_frequencies_symbols.
    symmetry. apply (Counter_weighted (λ s, len (code_of (codes e) s))).
  - rewrite Henc. apply py_sum_int_ge_len. intros s Hs.
    apply Hkeys, dict_get_is_Some in Hs as [c Hc].
    unfold code_of. rewrite Hc. cbn [default].
    apply Hne in Hc as [Hc _]. unfold len. destruct c; [done|]. simpl. lia.
Qed.

(** X13: the encoding is as long as the code lengths weighted by the
    frequencies say: the number of bits of [encode_text] is the sum over the
    frequency table of count times code length, and is at least the number
    of symbols of the text. *)
Theorem encoded_length `{Arith F} (t : str) (pairs : bool) :
  ∃ e : encoder F,
    build t pairs = Return e
    ∧ len (encoded_of e)
      = py_sum_int ((λ sf : list N * Z, sf.2 * len (code_of (codes e) sf.1))
                      <$> frequencies e)
    ∧ len (symbols t pairs) ≤ len (encoded_of e).
Proof.
  destruct (build_total (F:=F) t pairs) as (e & He & _).
  exists e. split; [done|]. by apply encoded_length_aux.
Qed.

(** ** The average code length *)

Lemma py_sum_concat_Qc (ls : list (list Qc)) :
  py_sum (concat ls) = py_sum (py_sum <$> ls).
Proof.
  induction ls as [|l ls IH]; [done|].
  by rewrite concat_cons, py_sum_app, fmap_cons, py_sum_cons_Qc, IH.
Qed.

Lemma py_sum_perm_Qc (l l' : list Qc) : l ≡ₚ l' → py_sum l = py_sum l'.
Proof.
  induction 1 as [|x l l' _ IH|x y l|l l' l'' _ IH1 _ IH2]; [done|..].
  - by rewrite !py_sum_cons_Qc, IH.
  - rewrite !py_sum_cons_Qc. ring.
  - by rewrite IH1.
Qed.

(** The inner generator finds the probability of [char], once. *)
Lemma matching_probability {V W} (g : V → W) (char : str) (probs : dict str V) :
  NoDup (dict_keys probs) →
  concat ((λ '(char_prob, prob), if decide (char = char_prob) then [g prob] else [])
            <$> probs)
  = match dict_get char probs with Some q => [g q] | None => [] end.
Proof.
  unfold dict_keys. induction probs as [|[cp pr] probs IH]; [done|].
  rewrite !fmap_cons. intros [Hcp Hnd]%NoDup_cons.
  rewrite concat_cons, IH by done. cbn [dict_get fst].
  destruct (decide (char = cp)) as [->|Hne]; [|done].
  cbn [fst] in Hcp. apply (dict_get_None cp probs) in Hcp. by rewrite Hcp.
Qed.

Lemma average_code_length_sum (codes : dict str str) (probs : dict str Qc) :
  NoDup (dict_keys codes) → NoDup (dict_keys probs) →
  (∀ s, s ∈ dict_keys codes ↔ s ∈ dict_keys probs) →
  calculate_average_code_length codes probs
  = py_sum ((λ sq : list N * Qc, Qc_of_Z (len (code_of codes sq.1)) * sq.2)%Qc
              <$> probs).
Proof.
  intros Hc Hp Hkeys. unfold calculate_average_code_length.
  set (h := λ s : list N,
         (Qc_of_Z (len (code_of codes s)) * default 0 (dict_get s probs))%Qc).
  transitivity (py_sum (h <$> dict_keys codes)).
  - rewrite py_sum_concat_Qc. f_equal. unfold dict_keys.
    rewrite <- !list_fmap_compose. apply list_fmap_ext.
    intros i [s c] Hi. cbn [compose fst].
    rewrite (matching_probability (λ q : Qc, fmul (fof_int (len c)) q)) by done.
    unfold h. apply list_elem_of_lookup_2 in Hi.
    unfold code_of. rewrite (dict_get_elem_NoDup s c codes Hc Hi). cbn [default].
    destruct (dict_get s probs) as [q|].
    + unfold py_sum. cbn. ring.
    + unfold py_sum. cbn. ring.
  - rewrite (py_sum_perm_Qc (h <$> dict_keys codes) (h <$> dict_keys probs)).
    2:{ apply fmap_Permutation. apply NoDup_Permutation; done. }
    f_equal. unfold dict_keys. rewrite <- list_fmap_compose.
    apply list_fmap_ext. intros i [s q] Hi. cbn [compose fst snd]. unfold h.
    apply list_elem_of_lookup_2 in Hi.
    by rewrite (dict_get_elem_NoDup s q probs Hp Hi).
Qed.

Lemma weighted_quotients (T : Z) (g : list N → Z) (fr : dict str Z) :
  py_sum ((λ sq : list N * Qc, Qc_of_Z (g sq.1) * sq.2)%Qc
            <$> ((λ cf : list N * Z, (cf.1, fdiv cf.2 T : Qc)) <$> fr))
  = (Qc_of_Z (py_sum_int ((λ sf : list N * Z, (sf.2 * g sf.1)%Z) <$> fr))
     / Qc_of_Z T)%Qc.
Proof.
  induction fr as [|[c f] fr IH].
  - cbn. unfold Qcdiv. rewrite Z2Qc_inj_0. ring.
  - rewrite !fmap_cons, py_sum_cons_Qc, py_sum_int_cons, IH.
    cbn [fst snd fdiv Qc_arith].
    rewrite Z2Qc_inj_add, Z2Qc_inj_mul. unfold Qcdiv. ring.
Qed.

Lemma build_unfold `{Arith F} (t : str) (pairs : bool) :
  let fr := calculate_frequencies t pairs in
  let pq := (λ cf : list N * Z, (cf.1, fdiv cf.2 (py_sum_int (dict_values fr))))
              <$> fr in
  ∃ c, shannon_fano_coding pq [] = Return c
       ∧ build (F:=F) t pairs
         = Return {| text := t; frequencies := fr; probabilities := pq; codes := c |}.
Proof.
  intros fr pq. unfold build.
  rewrite (calculate_probabilities_total_nonzero (F:=F))
    by apply calculate_frequencies_total_nonzero.
  cbn [mbind outcome_bind]. fold fr. fold pq.
  destruct (shannon_fano_coding_spec pq) as (c & Hc & _).
  exists c. split; [done|]. by rewrite Hc.
Qed.

Lemma average_code_length_pipeline (t : str) (pairs : bool) :
  t ≠ [] →
  ∃ e : encoder Qc,
    build t pairs = Return e
    ∧ (calculate_average_code_length (codes e) (probabilities e)
       * Qc_of_Z (len (symbols t pairs))
       = Qc_of_Z (len (encoded_of e)))%Qc
    ∧ (1 ≤ calculate_average_code_length (codes e) (probabilities e))%Qc.
Proof.
  intros Ht.
  destruct (build_unfold (F:=Qc) t pairs) as (c & Hc & He). cbn zeta in Hc, He.
  set (fr := calculate_frequencies t pairs) in *.
  set (T := py_sum_int (dict_values fr)) in *.
  set (pq := _ <$> fr) in *.
  set (e := {| text := t; frequencies := fr; probabilities := pq; codes := c |}) in *.
  destruct (build_total (F:=Qc) t pairs)
    as (e' & He' & _ & _ & Hkeys & Hnd & _ & Hne).
  rewrite He in He'. injection He' as <-.
  exists e. split; [done|]. cbn [codes probabilities] in *.
  assert (HT : T = len (symbols t pairs)).
  { unfold T, fr. by rewrite calculate_frequencies_symbols, Counter_sum. }
  assert (HTpos : 0 < T).
  { rewrite HT. pose proof (symbols_nonempty t pairs Ht).
    unfold len. destruct (symbols _ _); [done|]. simpl. lia. }
  assert (HTq : (0 < Qc_of_Z T)%Qc).
  { rewrite <- Z2Qc_inj_0. by apply (proj1 (Z2Qc_inj_lt 0 T)). }
  assert (HTne : Qc_of_Z T ≠ 0%Qc).
  { intros Heq. rewrite Heq in HTq. by apply Qclt_not_eq in HTq. }
  assert (Hpkeys : dict_keys pq = dict_keys fr).
  { unfold pq, dict_keys. by rewrite <- list_fmap_compose. }
  destruct (encoded_length_aux t pairs e He) as [Hlen Hge].
  assert (Havg : (calculate_average_code_length c pq * Qc_of_Z T
                  = Qc_of_Z (len (encoded_of e)))%Qc).
  { rewrite average_code_length_sum; [|done| |].
    - unfold pq. rewrite (weighted_quotients T (λ s, len (code_of c s)) fr).
      rewrite Hlen. change (codes e) with c. change (frequencies e) with fr.
      unfold Qcdiv. rewrite <- Qcmult_assoc, Qcmult_inv_l by done.
      apply Qcmult_1_r.
    - rewrite Hpkeys. unfold fr. rewrite calculate_frequencies_symbols.
      apply Counter_NoDup.
    - intros s. rewrite (Hkeys s : s ∈ dict_keys c ↔ _), Hpkeys. unfold fr.
      rewrite calculate_frequencies_symbols. symmetry. apply Counter_keys. }
  change (codes e) with c. change (probabilities e) with pq.
  split; [by rewrite <- HT|].
  apply (Qcmult_lt_0_le_reg_r _ _ (Qc_of_Z T)); [done|].
  rewrite Havg, Qcmult_1_l. apply (proj1 (Z2Qc_inj_le _ _)). by rewrite HT.
Qed.


(** X14: in exact arithmetic, for a non-empty text, the average code length
    of [calculate_average_code_length] is the number of encoded bits per
    symbol: multiplied by the number of symbols of the text it gives the
    length of [encode_text]; it is at least 1. *)
Theorem average_code_length_exact (t : str) (pairs : bool) :
  t ≠ [] →
  ∃ e : encoder Qc,
    build t pairs = Return e
    ∧ (calculate_average_code_length (codes e) (probabilities e)
       * Qc_of_Z (len (symbols t pairs))
       = Qc_of_Z (len (encoded_of e)))%Qc
    ∧ (1 ≤ calculate_average_code_length (codes e) (probabilities e))%Qc.
Proof. apply average_code_length_pipeline. Qed.

Lemma average_code_length_exact_witness :
  ∃ e : encoder Qc,
    build (lit "aaabbc") false = Return e
    ∧ (calculate_average_code_length (codes e) (probabilities e)
       * Qc_of_Z (len (symbols (lit "aaabbc") false))
       = Qc_of_Z (len (encoded_of e)))%Qc
    ∧ (1 ≤ calculate_average_code_length (codes e) (probabilities e))%Qc.
Proof. apply (average_code_length_exact (lit "aaabbc") false). done. Defined.

(** ** The efficiency *)

Lemma calculate_compression_efficiency_guard `{ArithReport F}
    (entropy : F) (codes : dict str str) (probabilities : dict str F) :
  (∀ y : F, fltb fzero y = true → fis_zero y = false) →
  calculate_compression_efficiency entropy codes probabilities
  = Return
      (if fltb fzero (calculate_average_code_length codes probabilities)
       then fmul (ftruediv entropy
                    (calculate_average_code_length codes probabilities))
                 (fof_int 100)
       else fzero).
Proof.
  intros Hlaw. unfold calculate_compression_efficiency. cbn zeta.
  destruct (fltb fzero _) eqn:Hpos; [|done].
  unfold py_float_div. by rewrite (Hlaw _ Hpos).
Qed.

Lemma Qc_positive_not_zero (y : Qc) : fltb fzero y = true → fis_zero y = false.
Proof.
  intros Hy%fltb_Qc_true. cbn [fis_zero Qc_report].
  apply bool_decide_eq_false. intros ->. by apply Qclt_not_eq in Hy.
Qed.

(** X15: [calculate_compression_efficiency] never divides by zero: in any
    arithmetic where a number above zero is not zero the guard
    [avg_length > 0] keeps the division from raising, and the method
    returns.  Exact arithmetic is such, and there, for the tables of a
    non-empty text, the guard always holds: the result is
    entropy / average code length * 100, never the fallback 0. *)
Theorem calculate_compression_efficiency_returns :
  (∀ `{ArithReport F} (entropy : F) codes probabilities,
     (∀ y : F, fltb fzero y = true → fis_zero y = false) →
     ∃ r, calculate_compression_efficiency entropy codes probabilities = Return r)
  ∧ (∀ y : Qc, fltb fzero y = true → fis_zero y = false)
  ∧ (∀ (t : str) (pairs : bool) (entropy : Qc),
       t ≠ [] →
       ∃ e : encoder Qc,
         build t pairs = Return e
         ∧ calculate_compression_efficiency entropy (codes e) (probabilities e)
           = Return (entropy
                     / calculate_average_code_length (codes e) (probabilities e)
                     * Qc_of_Z 100)%Qc).
Proof.
  split.
  { intros F HA HR entropy codes probabilities Hlaw. eexists.
    by apply calculate_compression_efficiency_guard. }
  split; [apply Qc_positive_not_zero|].
  intros t pairs entropy Ht.
  destruct (average_code_length_pipeline t pairs Ht) as (e & He & _ & Havg).
  exists e. split; [done|].
  rewrite calculate_compression_efficiency_guard by apply Qc_positive_not_zero.
  assert (fltb fzero (calculate_average_code_length (codes e) (probabilities e))
          = true) as ->; [|done].
  apply fltb_Qc_true. eapply Qclt_le_trans; [|exact Havg]. done.
Qed.

Lemma calculate_compression_efficiency_returns_witness :
  ∃ e : encoder Qc,
    build (lit "aaabbc") false = Return e
    ∧ calculate_compression_efficiency (Q2Qc (3 # 2)) (codes e) (probabilities e)
      = Return (Q2Qc (3 # 2)
                / calculate_average_code_length (codes e) (probabilities e)
                * Qc_of_Z 100)%Qc.
Proof.
  apply (proj2 (proj2 calculate_compression_efficiency_returns)
           (lit "aaabbc") false (Q2Qc (3 # 2))).
  done.
Defined.

(** ** The statistics table *)

Lemma str_ltb_irrefl a : str_ltb a a = false.
Proof. induction a as [|x a IH]; [done|]. cbn. by rewrite decide_True. Qed.

Lemma str_ltb_trans a b c :
  str_ltb a b = true → str_ltb b c = true → str_ltb a c = true.
Proof.
  revert b c. induction a as [|x a IH]; intros [|y b] [|z c]; cbn; try done.
  repeat case_decide; subst; try done; eauto.
  - intros ?%bool_decide_eq_true ?%bool_decide_eq_true. lia.
  - intros ?%bool_decide_eq_true ?%bool_decide_eq_true.
    apply bool_decide_eq_true. lia.
Qed.

Lemma str_ltb_total a b :
  str_ltb a b = false → str_ltb b a = false → a = b.
Proof.
  revert b. induction a as [|x a IH]; intros [|y b]; cbn; try done.
  repeat case_decide; subst; try done.
  - intros ??. f_equal. by apply IH.
  - intros ?%bool_decide_eq_false ?%bool_decide_eq_false. lia.
Qed.

Lemma insert_asc_perm x l : insert_asc x l ≡ₚ x :: l.
Proof.
  induction l as [|y l IH]; [done|]. cbn. destruct (str_ltb y x); [|done].
  rewrite IH. apply Permutation_swap.
Qed.

Lemma sorted_asc_perm l : sorted_asc l ≡ₚ l.
Proof.
  induction l as [|x l IH]; [done|]. cbn. by rewrite insert_asc_perm, IH.
Qed.

Lemma insert_asc_sorted x l :
  StronglySorted (λ a b, str_ltb b a = false) l →
  StronglySorted (λ a b, str_ltb b a = false) (insert_asc x l).
Proof.
  induction 1 as [|y l Hl IH Hy]; cbn.
  { constructor; [constructor|constructor]. }
  destruct (str_ltb y x) eqn:Hyx.
  - constructor; [done|]. rewrite insert_asc_perm. constructor; [|done].
    destruct (str_ltb x y) eqn:Hxy; [|done].
    by rewrite <-(str_ltb_irrefl x), <-(str_ltb_trans x y x Hxy Hyx).
  - constructor; [by constructor|]. constructor; [done|].
    eapply Forall_impl; [exact Hy|]. intros z Hzy. cbn in Hzy.
    destruct (str_ltb z x) eqn:Hzx; [|done].
    destruct (str_ltb x y) eqn:Hxy.
    + by rewrite <-Hzy, (str_ltb_trans z x y Hzx Hxy).
    + by rewrite (str_ltb_total x y Hxy Hyx), Hzy in Hzx.
Qed.

Lemma sorted_asc_sorted l :
  StronglySorted (λ a b, str_ltb b a = false) (sorted_asc l).
Proof.
  induction l as [|x l IH]; [constructor|]. by apply insert_asc_sorted.
Qed.

Lemma sorted_asc_strict l :
  NoDup l → StronglySorted (λ a b, str_ltb a b = true) (sorted_asc l).
Proof.
  intros Hnd. rewrite <-sorted_asc_perm in Hnd.
  pose proof (sorted_asc_sorted l) as Hs.
  induction Hs as [|x l' Hl' IH Hx]; [constructor|].
  apply NoDup_cons in Hnd as [Hx' Hnd]. constructor; [by apply IH|].
  apply Forall_forall. intros y Hy.
  pose proof (proj1 (Forall_forall _ _) Hx y Hy) as Hyx. cbn in Hyx.
  destruct (str_ltb x y) eqn:Hxy; [done|].
  rewrite (str_ltb_total x y Hxy Hyx) in Hx'. done.
Qed.

Lemma rmap_list_Forall2 {A B} (f : A → report B) (P : A → B → Prop) l :
  (∀ x, x ∈ l → ∃ y, f x = Done y ∧ P x y) →
  ∃ ys, rmap_list f l = Done ys ∧ Forall2 P l ys.
Proof.
  induction l as [|x l IH]; intros Hf.
  { exists []. by split; [|constructor]. }
  destruct (Hf x) as (y & Hy & HP); [apply list_elem_of_here|].
  destruct IH as (ys & Hys & HPs).
  { intros x' Hx'. apply Hf. by apply list_elem_of_further. }
  exists (y :: ys). cbn. rewrite Hy. cbn. rewrite Hys. cbn.
  by split; [|constructor].
Qed.

Lemma rmap_list_Failed {A B} (f : A → report B) (e : failure) l1 x l2 :
  Forall (λ x', ∃ y, f x' = Done y) l1 →
  f x = Failed e →
  rmap_list f (l1 ++ x :: l2) = Failed e.
Proof.
  intros Hl1 Hx. induction Hl1 as [|x' l1 [y Hy] _ IH]; cbn [app rmap_list].
  - by rewrite Hx.
  - by rewrite Hy, IH.
Qed.

(** X16: the statistics table of the pipeline, for every text in either
    mode: [get_statistics_table] returns, without a [KeyError]; its rows
    follow the distinct symbols of the text in strictly ascending order
    (by code point), one row per symbol; a row holds the number of
    occurrences of its symbol, the rounded probability of the symbol, the
    symbol's code, which is not the default empty string, and the length of
    that code, at least 1. *)
Theorem statistics_table_pipeline `{ArithReport F} (repr : str → str)
    (round4 : F → F) (t : str) (pairs : bool) :
  ∃ (e : encoder F) (rows : list (row F)) (chars : list str),
    build t pairs = Return e
    ∧ get_statistics_table repr round4 (frequencies e) (probabilities e) (codes e)
      = Done rows
    ∧ StronglySorted (λ a b, str_ltb a b = true) chars
    ∧ (∀ s, s ∈ chars ↔ s ∈ symbols t pairs)
    ∧ Forall2 (λ char r,
                 row_symbol r = repr char
                 ∧ row_frequency r = len (filter (λ x, x = char) (symbols t pairs))
                 ∧ (∃ p, dict_get char (probabilities e) = Some p
                         ∧ row_probability r = round4 p)
                 ∧ dict_get char (codes e) = Some (row_code r)
                 ∧ row_code_length r = len (row_code r)
                 ∧ 1 ≤ row_code_length r)
              chars rows.
Proof.
  destruct (build_unfold (F:=F) t pairs) as (c & Hc & Hbuild).
  destruct (shannon_fano_coding_spec
              ((λ cf : list N * Z,
                  (cf.1, fdiv cf.2
                           (py_sum_int (dict_values (calculate_frequencies t pairs)))))
                 <$> calculate_frequencies t pairs))
    as (c' & Hc' & Hkeys & _ & _ & Hcodes).
  rewrite Hc in Hc'. injection Hc' as <-.
  set (fr := calculate_frequencies t pairs) in *.
  set (pq := (λ cf : list N * Z, (cf.1, fdiv cf.2 (py_sum_int (dict_values fr))))
               <$> fr) in *.
  assert (Hfr : ∀ s, s ∈ dict_keys fr ↔ s ∈ symbols t pairs).
  { intros s. unfold fr. rewrite calculate_frequencies_symbols. apply Counter_keys. }
  assert (Hpq : dict_keys pq = dict_keys fr).
  { unfold pq, dict_keys. rewrite <-list_fmap_compose. done. }
  set (chars := sorted_asc (dict_keys fr)).
  assert (Hchars : ∀ s, s ∈ chars ↔ s ∈ symbols t pairs).
  { intros s. unfold chars. by rewrite sorted_asc_perm. }
  edestruct (rmap_list_Forall2 (table_row repr round4 fr pq c)) as (rows & Hrows & HP);
    [|exists (Build_encoder F t fr pq c), rows, chars; split; [exact Hbuild|];
      split; [exact Hrows|]; split; [|split; [exact Hchars|exact HP]]].
  - intros char Hchar%Hchars. unfold table_row, dict_item.
    assert (dict_get char fr
            = Some (len (filter (λ x, x = char) (symbols t pairs)))) as Hget.
    { unfold fr. rewrite calculate_frequencies_symbols, Counter_get.
      by rewrite decide_True. }
    rewrite Hget. cbn.
    unfold pq at 1.
    rewrite (dict_get_fmap_values
               (λ f : Z, fdiv f (py_sum_int (dict_values fr))) char fr), Hget.
    cbn.
    destruct (proj2 (dict_get_is_Some char c)) as [code Hcode].
    { apply Hkeys. rewrite Hpq. by apply Hfr. }
    rewrite Hcode. cbn. eexists. split; [done|]. cbn.
    split; [done|]. split; [done|]. split.
    { eexists. split; [|done]. unfold pq.
      by rewrite (dict_get_fmap_values
                    (λ f : Z, fdiv f (py_sum_int (dict_values fr))) char fr), Hget. }
    split; [done|]. split; [done|].
    destruct (Hcodes _ _ Hcode) as [Hne _]. unfold len.
    destruct code; [done|]. cbn. lia.
  - apply sorted_asc_strict. unfold fr. rewrite calculate_frequencies_symbols.
    apply Counter_NoDup.
Qed.

Lemma sorted_asc_before (k : str) (l : list str) :
  StronglySorted (λ a b, str_ltb b a = false) l →
  k ∈ l →
  ∃ l1 l2, l = l1 ++ k :: l2 ∧ Forall (λ y, str_ltb y k = true) l1.
Proof.
  induction 1 as [|y l Hl IH Hy]; intros Hk; [by apply elem_of_nil in Hk|].
  destruct (decide (y = k)) as [->|Hne].
  { exists [], l. by split; [|constructor]. }
  apply elem_of_cons in Hk as [->|Hk]; [done|].
  destruct (IH Hk) as (l1 & l2 & -> & Hl1).
  exists (y :: l1), l2. split; [done|]. constructor; [|done].
  pose proof (proj1 (Forall_forall _ _) Hy k) as Hky. cbn in Hky.
  destruct (str_ltb y k) eqn:Hyk; [done|].
  destruct Hne. apply str_ltb_total; [done|]. apply Hky.
  apply elem_of_app. right. apply list_elem_of_here.
Qed.

(** X17: [get_statistics_table] raises [KeyError] for the smallest symbol
    (in the order of [sorted]) of the frequency table that the probability
    table lacks, whatever the code table holds: a frequency table with a
    symbol [k] that has no probability, all smaller symbols having one,
    gives [KeyError(k)].  So the method fails on a non-empty text as long
    as [calculate_probabilities] has not run. *)
Theorem statistics_table_KeyError `{ArithReport F} (repr : str → str)
    (round4 : F → F) (frequencies : dict str Z) (probabilities : dict str F)
    (codes : dict str str) (k : str) :
  k ∈ dict_keys frequencies →
  dict_get k probabilities = None →
  (∀ k', k' ∈ dict_keys frequencies → str_ltb k' k = true →
         is_Some (dict_get k' probabilities)) →
  get_statistics_table repr round4 frequencies probabilities codes
  = Failed (KeyError k).
Proof.
  intros Hk Hnone Hsmaller. unfold get_statistics_table.
  destruct (sorted_asc_before k (sorted_asc (dict_keys frequencies)))
    as (l1 & l2 & Hl & Hl1).
  { apply sorted_asc_sorted. }
  { by rewrite sorted_asc_perm. }
  assert (Hin : ∀ x, x ∈ l1 ++ k :: l2 → x ∈ dict_keys frequencies).
  { intros x. by rewrite <-Hl, sorted_asc_perm. }
  assert (Hfreq : ∀ x, x ∈ dict_keys frequencies
                       → ∃ f, dict_get x frequencies = Some f).
  { intros x Hx. by apply dict_get_is_Some. }
  rewrite Hl. apply rmap_list_Failed.
  - apply Forall_forall. intros y Hy.
    assert (Hyk : y ∈ dict_keys frequencies).
    { apply Hin, elem_of_app. by left. }
    unfold table_row, dict_item.
    destruct (Hfreq y Hyk) as [f ->].
    destruct (Hsmaller y Hyk) as [p ->].
    { exact (proj1 (Forall_forall _ _) Hl1 y Hy). }
    by eexists.
  - unfold table_row, dict_item.
    destruct (Hfreq k Hk) as [f ->]. by rewrite Hnone.
Qed.

Lemma statistics_table_KeyError_witness :
  get_statistics_table (F:=Qc) (λ s, s) (λ p, p)
    (calculate_frequencies (lit "cab") false) [] []
  = Failed (KeyError (lit "a")).
Proof.
  apply (statistics_table_KeyError (F:=Qc) (λ s, s) (λ p, p)
           (calculate_frequencies (lit "cab") false) [] [] (lit "a")).
  - apply (bool_decide_unpack _). by vm_compute.
  - reflexivity.
  - intros k' Hk' Hlt. exfalso. revert Hlt.
    assert (Hk'' : k' ∈ [lit "c"; lit "a"; lit "b"]) by exact Hk'.
    repeat (apply elem_of_cons in Hk'' as [->|Hk'']; [by vm_compute|]).
    by apply elem_of_nil in Hk''.
Defined.

(** ** The whole analysis *)

Lemma sorted_asc_length l : length (sorted_asc l) = length l.
Proof. apply Permutation_length, sorted_asc_perm. Qed.

Lemma get_statistics_table_Done `{ArithReport F} (repr : str → str)
    (round4 : F → F) (frequencies : dict str Z) (probabilities : dict str F)
    (codes : dict str str) :
  dict_keys probabilities = dict_keys frequencies →
  ∃ rows, get_statistics_table repr round4 frequencies probabilities codes
          = Done rows
          ∧ length rows = length frequencies.
Proof.
  intros Hkeys. unfold get_statistics_table.
  edestruct (rmap_list_Forall2
               (table_row repr round4 frequencies probabilities codes)
               (λ _ _, True) (sorted_asc (dict_keys frequencies)))
    as (rows & Hrows & HP).
  - intros char Hchar. rewrite sorted_asc_perm in Hchar.
    unfold table_row, dict_item.
    destruct (proj2 (dict_get_is_Some char frequencies) Hchar) as [f ->].
    rewrite <-Hkeys in Hchar.
    destruct (proj2 (dict_get_is_Some char probabilities) Hchar) as [p ->].
    by eexists.
  - exists rows. split; [exact Hrows|].
    rewrite <-(Forall2_length _ _ _ HP), sorted_asc_length.
    unfold dict_keys. by rewrite length_fmap.
Qed.

(** X18: [analyze_text] returns for every text, empty or not, in either
    mode, in any arithmetic where a number above zero is not zero: none of
    its steps raises [ZeroDivisionError], [ValueError] or [KeyError], and
    the recursion ends.  The result's encoder is the one the pipeline
    builds, ['decoded_text'] is the text itself, ['encoded_text'] is the
    encoding with the encoder's own table, ['statistics_table'] has one row
    per entry of the frequency table, and ['compression_ratio'] is 0 for
    the empty text and the quotient of the encoded length by 8 times the
    text length otherwise. *)
Theorem analyze_text_returns `{ArithReport F} (log2 : F → F)
    (repr : str → str) (round4 : F → F) (t : str) (pairs : bool) :
  (∀ y : F, fltb fzero y = true → fis_zero y = false) →
  ∃ r : Analysis.t F,
    analyze_text log2 repr round4 t pairs = Done r
    ∧ build t pairs = Return (Analysis.encoder r)
    ∧ Analysis.decoded_text r = t
    ∧ Analysis.encoded_text r = encoded_of (Analysis.encoder r)
    ∧ length (Analysis.statistics_table r)
      = length (frequencies (Analysis.encoder r))
    ∧ Analysis.compression_ratio r
      = (if decide (t = []) then fzero
         else fdiv (Analysis.encoded_length r) (Analysis.original_length r * 8)).
Proof.
  intros Hlaw.
  destruct (build_unfold (F:=F) t pairs) as (c & Hc & Hbuild).
  destruct (shannon_fano_coding_spec
              ((λ cf : list N * Z,
                  (cf.1, fdiv cf.2
                           (py_sum_int (dict_values (calculate_frequencies t pairs)))))
                 <$> calculate_frequencies t pairs))
    as (c' & Hc' & Hkeys & Hnd & Hpf & Hcodes).
  rewrite Hc in Hc'. injection Hc' as <-.
  pose proof (calculate_probabilities_total_nonzero (F:=F)
                (calculate_frequencies t pairs)
                (calculate_frequencies_total_nonzero t pairs)) as Hprob.
  set (fr := calculate_frequencies t pairs) in *.
  set (pq := (λ cf : list N * Z, (cf.1, fdiv cf.2 (py_sum_int (dict_values fr))))
               <$> fr) in *.
  assert (Hpq : dict_keys pq = dict_keys fr).
  { unfold pq, dict_keys. rewrite <-list_fmap_compose. done. }
  destruct (calculate_entropy_Return log2 pq) as [h Hh].
  destruct (get_statistics_table_Done repr round4 fr pq c Hpq)
    as (rows & Hrows & Hlen).
  assert (Hdec : decode_text t c (encode_text t c) = t).
  { destruct (decide (t = [])) as [->|Ht].
    { by rewrite encode_text_empty, decode_text_empty. }
    apply (codec_roundtrip t pairs); [done| |done..|].
    - intros s. rewrite Hkeys, Hpq. unfold fr.
      rewrite calculate_frequencies_symbols. apply Counter_keys.
    - intros s code Hs. by destruct (Hcodes _ _ Hs). }
  assert (Hratio : ∃ q,
            match t with
            | [] => Return fzero
            | _ :: _ => py_truediv (F:=F) (len (encode_text t c)) (len t * 8)
            end = Return q
            ∧ q = if decide (t = []) then fzero
                  else fdiv (len (encode_text t c)) (len t * 8)).
  { destruct t as [|x t']; [by eexists|]. eexists. split; [|done].
    unfold py_truediv. rewrite decide_False; [done|]. unfold len. cbn. lia. }
  destruct Hratio as (q & Hq & Hqv).
  eexists. split.
  { unfold analyze_text. fold fr. rewrite Hprob. cbn [lift mbind report_bind].
    rewrite Hh. cbn [lift mbind report_bind].
    rewrite Hc. cbn [lift mbind report_bind].
    rewrite (calculate_compression_efficiency_guard _ _ _ Hlaw).
    cbn [lift mbind report_bind].
    rewrite Hrows. cbn [lift mbind report_bind].
    rewrite Hq. cbn [lift mbind report_bind]. reflexivity. }
  cbn. split; [exact Hbuild|]. split; [exact Hdec|]. split; [done|].
  split; [exact Hlen|]. exact Hqv.
Qed.

Lemma analyze_text_returns_witness :
  ∃ r : Analysis.t Qc,
    analyze_text (λ x, (x - 1)%Qc) (λ s, s) (λ p, p) (lit "aaabbc") false
    = Done r
    ∧ build (lit "aaabbc") false = Return (Analysis.encoder r)
    ∧ Analysis.decoded_text r = lit "aaabbc"
    ∧ Analysis.encoded_text r = encoded_of (Analysis.encoder r)
    ∧ length (Analysis.statistics_table r)
      = length (frequencies (Analysis.encoder r))
    ∧ Analysis.compression_ratio r
      = (if decide (lit "aaabbc" = []) then fzero
         else fdiv (Analysis.encoded_length r) (Analysis.original_length r * 8)).
Proof.
  apply (analyze_text_returns (F:=Qc) (λ x, (x - 1)%Qc) (λ s, s) (λ p, p)
           (lit "aaabbc") false).
  apply Qc_positive_not_zero.
Defined.

(** ** The entropy *)

Lemma count_quotient_bounds (n T : Z) :
  1 ≤ n ≤ T → (0 < fdiv n T ∧ fdiv n T ≤ 1)%Qc.
Proof.
  intros [Hn HT]. cbn [fdiv Qc_arith]. unfold Qcdiv.
  assert (HTq : (0 < Qc_of_Z T)%Qc).
  { rewrite <- Z2Qc_inj_0. apply (proj1 (Z2Qc_inj_lt 0 T)). lia. }
  split.
  - apply Qcmult_pos_pos; [|by apply Qcinv_pos].
    rewrite <- Z2Qc_inj_0. apply (proj1 (Z2Qc_inj_lt 0 n)). lia.
  - rewrite <- (Qcmult_inv_r (Qc_of_Z T)).
    + apply Qcmult_le_mono_nonneg_r; [by apply Qclt_le_weak, Qcinv_pos|].
      by apply (proj1 (Z2Qc_inj_le n T)).
    + intros Heq. rewrite Heq in HTq. by apply Qclt_not_eq in HTq.
Qed.

Lemma probability_values_bounds (t : str) (pairs : bool) :
  let fr := calculate_frequencies t pairs in
  Forall (λ q : Qc, (0 < q ∧ q ≤ 1)%Qc)
         (dict_values ((λ cf : list N * Z,
                          (cf.1, fdiv cf.2 (py_sum_int (dict_values fr)) : Qc))
                         <$> fr)).
Proof.
  intros fr. apply Forall_forall. intros q Hq.
  unfold dict_values in Hq. rewrite <-list_fmap_compose in Hq.
  apply list_elem_of_fmap in Hq as ([s f] & -> & Hsf). cbn [compose fst snd].
  apply count_quotient_bounds.
  assert (Hget : dict_get s fr = Some f).
  { apply dict_get_elem_NoDup; [|done]. unfold fr.
    rewrite calculate_frequencies_symbols. apply Counter_NoDup. }
  unfold fr in Hget |- *.
  rewrite calculate_frequencies_symbols, Counter_get in Hget.
  case_decide as Hin; [|done]. injection Hget as <-.
  rewrite calculate_frequencies_symbols.
  fold (dict_values (Counter (symbols t pairs))). rewrite Counter_sum. unfold len.
  pose proof (length_filter (λ x, x = s) (symbols t pairs)).
  assert (s ∈ filter (λ x, x = s) (symbols t pairs)) as Hf
    by (by apply list_elem_of_filter).
  destruct (filter _ _); [by apply elem_of_nil in Hf|]. simpl in *. lia.
Qed.

Lemma py_sum_nonpos (l : list Qc) :
  Forall (λ x, (x ≤ 0)%Qc) l → (py_sum l ≤ 0)%Qc.
Proof.
  induction 1 as [|x l Hx _ IH]; [done|]. rewrite py_sum_cons_Qc.
  replace 0%Qc with (0 + 0)%Qc by ring. by apply Qcplus_le_compat.
Qed.

(** X19: in exact arithmetic, with any [log2] that is not positive on
    (0, 1], the entropy of the probability table of every text is not
    negative, and the redundancy is at most the uniform code length: the
    filter [p > 0] keeps every probability of the table, each term
    [p * log2(p)] is at most 0, and the sum is negated once. *)
Theorem entropy_nonnegative (log2 : Qc → Qc) (t : str) (pairs : bool) :
  (∀ p : Qc, (0 < p)%Qc → (p ≤ 1)%Qc → (log2 p ≤ 0)%Qc) →
  ∃ (p : dict str Qc) (h : Qc),
    calculate_probabilities (calculate_frequencies t pairs) = Return p
    ∧ calculate_entropy log2 p = Return h
    ∧ (0 ≤ h)%Qc
    ∧ (calculate_redundancy
         (calculate_uniform_code_length (calculate_frequencies t pairs)) h
       ≤ Qc_of_Z (calculate_uniform_code_length (calculate_frequencies t pairs)))%Qc.
Proof.
  intros Hlog.
  pose proof (calculate_probabilities_total_nonzero (F:=Qc)
                (calculate_frequencies t pairs)
                (calculate_frequencies_total_nonzero t pairs)) as Hprob.
  pose proof (probability_values_bounds t pairs) as Hbounds. cbn zeta in Hbounds.
  set (fr := calculate_frequencies t pairs) in *.
  set (pq := (λ cf : list N * Z, (cf.1, fdiv cf.2 (py_sum_int (dict_values fr)) : Qc))
               <$> fr) in *.
  assert (Hfilter : filter (λ p : Qc, fltb fzero p = true) (dict_values pq)
                    = dict_values pq).
  { induction Hbounds as [|q l [Hq _] _ IH]; [done|].
    rewrite filter_cons_True; [by rewrite IH|]. by apply fltb_Qc_true. }
  assert (Hh : calculate_entropy log2 pq
               = Return (- py_sum ((λ q, q * log2 q) <$> dict_values pq))%Qc).
  { unfold calculate_entropy. rewrite Hfilter.
    rewrite (omap_list_Return _ (λ q : Qc, (q * log2 q)%Qc)); [done|].
    intros q Hq. unfold py_log2.
    destruct (proj1 (Forall_forall _ _) Hbounds q Hq) as [Hpos _].
    assert (fltb fzero q = true) as -> by (by apply fltb_Qc_true). done. }
  assert (Hsum : (py_sum ((λ q, q * log2 q) <$> dict_values pq) ≤ 0)%Qc).
  { apply py_sum_nonpos, Forall_fmap. eapply Forall_impl; [exact Hbounds|].
    intros q [Hpos Hle]. cbn.
    replace 0%Qc with (q * 0)%Qc by ring. rewrite !(Qcmult_comm q).
    apply Qcmult_le_compat_r; [by apply Hlog|by apply Qclt_le_weak]. }
  exists pq, (- py_sum ((λ q, q * log2 q) <$> dict_values pq))%Qc.
  split; [exact Hprob|]. split; [exact Hh|].
  assert (Hnonneg : (0 ≤ - py_sum ((λ q, q * log2 q) <$> dict_values pq))%Qc).
  { exact (Qcopp_le_compat _ _ Hsum). }
  split; [exact Hnonneg|].
  unfold calculate_redundancy. cbn [fsub fof_int Qc_arith Qc_report].
  set (u := Qc_of_Z _). set (h := (- _)%Qc) in *.
  replace u with (u - 0)%Qc at 2 by ring.
  unfold Qcminus. apply Qcplus_le_compat; [apply Qcle_refl|].
  by apply Qcopp_le_compat.
Qed.

Lemma entropy_nonnegative_witness :
  ∃ (p : dict str Qc) (h : Qc),
    calculate_probabilities (calculate_frequencies (lit "aaabbc") false) = Return p
    ∧ calculate_entropy (λ x, (x - 1)%Qc) p = Return h
    ∧ (0 ≤ h)%Qc
    ∧ (calculate_redundancy
         (calculate_uniform_code_length
            (calculate_frequencies (lit "aaabbc") false)) h
       ≤ Qc_of_Z (calculate_uniform_code_length
                    (calculate_frequencies (lit "aaabbc") false)))%Qc.
Proof.
  apply (entropy_nonnegative (λ x, (x - 1)%Qc) (lit "aaabbc") false).
  intros p _ Hp. replace 0%Qc with (1 - 1)%Qc by ring.
  unfold Qcminus. apply Qcplus_le_compat; [exact Hp|apply Qcle_refl].
Defined.
